(** * The pulsar actor: lifecycle, mailbox dispatch, heartbeat and linking

    A shallow embedding of [pulsar/async/actor.py].  The actor object is a
    record, every method is a state transformer on that record, and what the
    actor does to its collaborators (event loop, logger, proxies, mailbox
    queue) is appended, in order, to the [trace] field of the record.

    Conventions.
    - Python floats ([time()], [timeout], the tolerance [0.2]) are IEEE 754
      binary64 numbers, the primitive [float] with its rounding operations;
      an [int] timeout enters as the float that [0.2*timeout] and the
      comparison convert it to.
    - [_inbox] lists what the successive [inbox.get(timeout=...)] calls
      return, oldest first; past its end the queue reports [Empty].
    - Messages sent through a proxy are recorded as [EvSend] events; their
      delivery belongs to the backend. *)

From Stdlib Require Import Floats ZArith.
From stdpp Require Import gmap strings list fin_maps.

Open Scope string_scope.
Open Scope list_scope.
Open Scope Z_scope.

(** ** Python values carried by messages *)

(** The dictionary built by [Actor.info]. *)
Record info_dict := {
  info_aid : string;
  info_pid : Z;
  info_ppid : option Z;
  info_thread : string;
  info_process : string;
  info_isprocess : bool
}.

Inductive pyval :=
| VNone
| VBool (b : bool)
| VNum (x : float)
| VStr (s : string)
| VInfo (i : info_dict).

(** Exceptions the modelled code can raise. *)
Inductive exn :=
| KeyError (key : string)
| NameError (name : string)
| TypeError
| AttributeError
| SystemExit
| KeyboardInterrupt
| OtherException (what : string).

(** [except Exception] catches everything but the two exceptions that derive
    from [BaseException] only. *)
Definition is_Exception (e : exn) : bool :=
  match e with
  | SystemExit | KeyboardInterrupt => false
  | _ => true
  end.

(** [ActorRequest]: the fields [actor.py] reads, [msg] being the pair
    [(args, kwargs)]. *)
Record request := {
  req_aid : string;
  req_name : string;
  req_args : list pyval;
  req_kwargs : list (string * pyval);
  req_rid : string
}.

(** One result of [inbox.get(timeout=INBOX_TIMEOUT)]: a request, or an
    [IOError]; [Empty] is the end of the list. *)
Inductive inbox_entry :=
| Msg (r : request)
| IOFault.

(** What [get_actor] returns: a reference to the object, so that a handler
    that writes on its caller writes on the shared object. *)
Inductive actor_ref :=
| RefSelfProxy
| RefLinked (a : string)
| RefArbiter
| RefMonitor.

(** ** Effects *)

Inductive hook := OnStart | OnTask | OnStop | OnExit.

Inductive log_msg :=
| LogBooting
| LogExiting
| LogUnlinked
| LogWorkerException (e : exn)
| LogRequestError (e : exn).

Inductive event :=
| EvAddLoopTask
| EvRemoveLoopTask
| EvConfigureLogging
| EvHook (h : hook)
| EvLogInfo (m : log_msg)
| EvLogError (m : log_msg)
| EvLogException (m : log_msg)
| EvIOLoopStart
| EvIOLoopStop
| EvSend (target : option actor_ref) (name : string) (args : list pyval)
| EvWaiterCallback (rid result : pyval)
| EvInboxClose.

(** ** The actor object *)

(** Modelled from the spec: a value of the registry [_linked_actors].  The
    code reads its [aid], the key of the registry, and [actor_notify] writes
    its [notified] attribute; the spec describes it as a non-owning
    reference made of the linked actor's aid and a route to its proxy.  No
    method of [Actor] adds one: see [link]. *)
Record linked_actor := { la_notified : option pyval }.

(** The arbiter and the monitor as the actor sees them. *)
Record supervisor := {
  sup_aid : string;
  sup_notified : option pyval
}.

(** What [os.getpid()], [current_thread().name] and
    [current_process().name] return where the actor runs. *)
Record os_env := {
  env_pid : Z;
  env_thread : string;
  env_process : string
}.

(** The attributes of an [Actor] instance.  [actor_links] is [None] or a
    dictionary; [on_stop_result] is the truth value of what the [on_stop]
    hook returns (false for the hook of the base class, which returns
    [None]); [last_notified] is absent until the first heartbeat;
    [_timeout] is the timeout as a float, a timeout that is false ([None],
    [0]) being [0.0]. *)
Record actor := {
  _impl : string;
  _aid : string;
  _timeout : float;
  _ppid : option Z;
  env : os_env;
  actor_links : option (list (string * string));
  on_stop_result : bool;
  arbiter : option supervisor;
  monitor : option supervisor;
  _inbox : list inbox_entry;
  _state : Z;
  _stopping : bool;
  _linked_actors : gmap string linked_actor;
  last_notified : option float;
  trace : list event
}.

Definition INITIAL : Z := 0.
Definition RUN : Z := 1.
Definition CLOSE : Z := 2.
Definition TERMINATE : Z := 3.
(** The float literals [0.02] and [0.2] are the binary64 numbers nearest to
    them, written exactly; [30], an [int] in the source, is compared with a
    float and read as [30.0]. *)
Definition INBOX_TIMEOUT : float := 0x1.47ae147ae147bp-6%float.
Definition MINIMUM_ACTOR_TIMEOUT : Z := 1.
Definition DEFAULT_ACTOR_TIMEOUT : float := 30%float.
Definition ACTOR_TIMEOUT_TOLERANCE : float := 0x1.999999999999ap-3%float.

(** ** Attribute updates *)

Definition set_inbox (v : list inbox_entry) (s : actor) : actor :=
  {| _impl := _impl s; _aid := _aid s; _timeout := _timeout s;
     _ppid := _ppid s; env := env s; actor_links := actor_links s;
     on_stop_result := on_stop_result s; arbiter := arbiter s;
     monitor := monitor s; _inbox := v; _state := _state s;
     _stopping := _stopping s; _linked_actors := _linked_actors s;
     last_notified := last_notified s; trace := trace s |}.

Definition set_state (v : Z) (s : actor) : actor :=
  {| _impl := _impl s; _aid := _aid s; _timeout := _timeout s;
     _ppid := _ppid s; env := env s; actor_links := actor_links s;
     on_stop_result := on_stop_result s; arbiter := arbiter s;
     monitor := monitor s; _inbox := _inbox s; _state := v;
     _stopping := _stopping s; _linked_actors := _linked_actors s;
     last_notified := last_notified s; trace := trace s |}.

Definition set_stopping (v : bool) (s : actor) : actor :=
  {| _impl := _impl s; _aid := _aid s; _timeout := _timeout s;
     _ppid := _ppid s; env := env s; actor_links := actor_links s;
     on_stop_result := on_stop_result s; arbiter := arbiter s;
     monitor := monitor s; _inbox := _inbox s; _state := _state s;
     _stopping := v; _linked_actors := _linked_actors s;
     last_notified := last_notified s; trace := trace s |}.

Definition set_linked_actors (v : gmap string linked_actor) (s : actor) : actor :=
  {| _impl := _impl s; _aid := _aid s; _timeout := _timeout s;
     _ppid := _ppid s; env := env s; actor_links := actor_links s;
     on_stop_result := on_stop_result s; arbiter := arbiter s;
     monitor := monitor s; _inbox := _inbox s; _state := _state s;
     _stopping := _stopping s; _linked_actors := v;
     last_notified := last_notified s; trace := trace s |}.

Definition set_last_notified (v : option float) (s : actor) : actor :=
  {| _impl := _impl s; _aid := _aid s; _timeout := _timeout s;
     _ppid := _ppid s; env := env s; actor_links := actor_links s;
     on_stop_result := on_stop_result s; arbiter := arbiter s;
     monitor := monitor s; _inbox := _inbox s; _state := _state s;
     _stopping := _stopping s; _linked_actors := _linked_actors s;
     last_notified := v; trace := trace s |}.

Definition set_arbiter (v : option supervisor) (s : actor) : actor :=
  {| _impl := _impl s; _aid := _aid s; _timeout := _timeout s;
     _ppid := _ppid s; env := env s; actor_links := actor_links s;
     on_stop_result := on_stop_result s; arbiter := v;
     monitor := monitor s; _inbox := _inbox s; _state := _state s;
     _stopping := _stopping s; _linked_actors := _linked_actors s;
     last_notified := last_notified s; trace := trace s |}.

Definition set_monitor (v : option supervisor) (s : actor) : actor :=
  {| _impl := _impl s; _aid := _aid s; _timeout := _timeout s;
     _ppid := _ppid s; env := env s; actor_links := actor_links s;
     on_stop_result := on_stop_result s; arbiter := arbiter s;
     monitor := v; _inbox := _inbox s; _state := _state s;
     _stopping := _stopping s; _linked_actors := _linked_actors s;
     last_notified := last_notified s; trace := trace s |}.

(** The actor acts on a collaborator: the event is appended to the trace. *)
Definition emit (e : event) (s : actor) : actor :=
  {| _impl := _impl s; _aid := _aid s; _timeout := _timeout s;
     _ppid := _ppid s; env := env s; actor_links := actor_links s;
     on_stop_result := on_stop_result s; arbiter := arbiter s;
     monitor := monitor s; _inbox := _inbox s; _state := _state s;
     _stopping := _stopping s; _linked_actors := _linked_actors s;
     last_notified := last_notified s; trace := trace s ++ [e] |}.

(** ** Construction: [Actor.__init__] and [Actor._init] *)

(** The backend implementation object handed to the constructor. *)
Record backend := {
  b_impl : string;
  b_aid : string;
  b_inbox : list inbox_entry;
  b_timeout : float
}.

Definition __init__ (impl : backend) (e : os_env)
    (arb mon : option supervisor) (links : option (list (string * string)))
    (on_stop_done : bool) : actor :=
  {| _impl := b_impl impl; _aid := b_aid impl; _timeout := b_timeout impl;
     _ppid := None; env := e; actor_links := links;
     on_stop_result := on_stop_done; arbiter := arb; monitor := mon;
     _inbox := b_inbox impl; _state := INITIAL; _stopping := false;
     _linked_actors := ∅; last_notified := None;
     trace := [EvAddLoopTask] |}.

(** ** Predicates on the lifecycle state *)

Definition is_alive (s : actor) : bool := _state s =? RUN.
Definition started (s : actor) : bool := _state s >=? RUN.
Definition closed (s : actor) : bool := _state s =? CLOSE.
Definition stopped (s : actor) : bool := _state s >=? CLOSE.
Definition isprocess (s : actor) : bool := String.eqb (_impl s) "process".
Definition is_monitor (s : actor) : bool := String.eqb (_impl s) "monitor".

Definition info (s : actor) : info_dict :=
  {| info_aid := _aid s; info_pid := env_pid (env s); info_ppid := _ppid s;
     info_thread := env_thread (env s); info_process := env_process (env s);
     info_isprocess := isprocess s |}.

(** ** Linking and addressing *)

(** [Actor.link].  The right-hand side [LinkedActor(actor)] is evaluated
    first, and [LinkedActor] is a name that [actor.py] neither defines nor
    imports: every call raises [NameError] before the registry is touched. *)
Definition link (a : string) (s : actor) : actor * option exn :=
  (s, Some (NameError "LinkedActor")).

Definition is_sup (a : string) (o : option supervisor) : bool :=
  match o with
  | Some p => bool_decide (a = sup_aid p)
  | None => false
  end.

Definition get_actor (a : string) (s : actor) : option actor_ref :=
  if bool_decide (a = _aid s) then Some RefSelfProxy
  else if bool_decide (is_Some (_linked_actors s !! a)) then Some (RefLinked a)
  else if is_sup a (arbiter s) then Some RefArbiter
  else if is_sup a (monitor s) then Some RefMonitor
  else None.

(** [caller.aid]; a reference to an absent supervisor has no aid. *)
Definition ref_aid (s : actor) (r : actor_ref) : option string :=
  match r with
  | RefSelfProxy => Some (_aid s)
  | RefLinked a => Some a
  | RefArbiter => sup_aid <$> arbiter s
  | RefMonitor => sup_aid <$> monitor s
  end.

(** The object given as first argument to [self.proxy.<name>(target, ...)]
    when the target is [self.arbiter]. *)
Definition arbiter_ref (s : actor) : option actor_ref :=
  match arbiter s with
  | Some _ => Some RefArbiter
  | None => None
  end.

(** ** The dispatch table: [ActorMetaClass] *)

(** A class attribute as [ActorMetaClass.__new__] sees it: a function,
    with its [ack] attribute when the class body sets one, or a value
    without [__call__]. *)
Inductive class_attr :=
| CMethod (ack : option bool)
| CData.

Definition fprefix : string := "actor_".

(** [key[len(fprefix):]] *)
Definition strip_prefix (key : string) : string :=
  String.substring (String.length fprefix)
    (String.length key - String.length fprefix) key.

(** [bases] gives, for each base class, its [actor_functions] when it has
    one.  Copying the entries of a base whose key is not yet in [cont] is the
    left-biased union of the two dictionaries.  As in the source, the loop
    over the bases sits inside the loop over the attributes. *)
Definition ActorMetaClass_new (bases : list (option (gmap string bool)))
    (attrs : list (string * class_attr)) : gmap string bool :=
  foldl (fun cont km =>
           let cont1 :=
             match snd km with
             | CMethod ack =>
                 if String.prefix fprefix (fst km)
                 then <[strip_prefix (fst km) := default true ack]> cont
                 else cont
             | CData => cont
             end in
           foldl (fun c base =>
                    match base with
                    | Some rbase => c ∪ rbase
                    | None => c
                    end) cont1 (rev bases))
        ∅ attrs.

(** [ActorBase = ActorMetaClass('BaseActor',(object,),{})] *)
Definition ActorBase_functions : gmap string bool :=
  ActorMetaClass_new [None] [].

(** The body of [class Actor], in source order. *)
Definition Actor_attrs : list (string * class_attr) :=
  [ ("__module__", CData); ("__doc__", CData); ("INITIAL", CData); ("RUN", CData); ("CLOSE", CData);
    ("TERMINATE", CData); ("status", CData); ("INBOX_TIMEOUT", CData);
    ("DEFAULT_IMPLEMENTATION", CData); ("MINIMUM_ACTOR_TIMEOUT", CData);
    ("DEFAULT_ACTOR_TIMEOUT", CData); ("ACTOR_TIMEOUT_TOLERANCE", CData);
    ("_stopping", CData); ("_ppid", CData); ("_name", CData);
    ("_runner_impl", CData); ("__init__", CMethod None); ("proxy", CData);
    ("aid", CData); ("ppid", CData); ("impl", CData); ("timeout", CData);
    ("pid", CData); ("tid", CData); ("name", CData); ("inbox", CData);
    ("__reduce__", CMethod None); ("on_start", CMethod None);
    ("on_task", CMethod None); ("on_stop", CMethod None);
    ("on_exit", CMethod None); ("on_manage_actor", CMethod None);
    ("is_alive", CMethod None); ("started", CMethod None);
    ("closed", CMethod None); ("stopped", CMethod None);
    ("_init", CMethod None); ("start", CMethod None);
    ("_get_eventloop", CMethod None); ("link", CMethod None);
    ("stop", CMethod None); ("_stop", CMethod None);
    ("terminate", CMethod None); ("shut_down", CMethod None);
    ("_stop_ioloop", CMethod None); ("_run", CMethod None);
    ("linked_actors", CMethod None); ("flush", CMethod None);
    ("get_actor", CMethod None); ("handle_request_from_actor", CMethod None);
    ("__call__", CMethod None); ("current_thread", CMethod None);
    ("current_process", CMethod None); ("isprocess", CMethod None);
    ("info", CMethod None); ("configure_logging", CMethod None);
    ("actor_callback", CMethod (Some false));
    ("actor_stop", CMethod (Some false));
    ("actor_notify", CMethod (Some false));
    ("actor_on_actor_exit", CMethod (Some false));
    ("actor_info", CMethod None); ("actor_ping", CMethod None);
    ("modify_arbiter_loop", CData); ("clean_arbiter_loop", CData);
    ("get_task_queue", CData) ].

(** [Actor.actor_functions]: the bases are [ActorBase], [LogginMixin] and
    [HttpMixin], of which only the first has the attribute. *)
Definition actor_functions : gmap string bool :=
  ActorMetaClass_new [Some ActorBase_functions; None; None] Actor_attrs.

(** ** Built-in actor functions *)

Inductive builtin :=
| actor_callback
| actor_stop
| actor_notify
| actor_on_actor_exit
| actor_info
| actor_ping.

(** The [ack] attribute of the function object, when the class body assigns
    one ([actor_callback.ack = False] and the like). *)
Definition ack_attr (h : builtin) : option bool :=
  match h with
  | actor_callback | actor_stop | actor_notify | actor_on_actor_exit =>
      Some false
  | actor_info | actor_ping => None
  end.

(** The parameters after [self] and [caller], with their defaults. *)
Definition params (h : builtin) : list (string * option pyval) :=
  match h with
  | actor_callback => [("rid", None); ("result", None)]
  | actor_stop => []
  | actor_notify => [("t", None)]
  | actor_on_actor_exit => [("reason", Some VNone)]
  | actor_info => []
  | actor_ping => []
  end.

(** What [getattr(self, 'actor_' + name, None)] finds. *)
Inductive pyattr :=
| AttrMethod (h : builtin)
| AttrDict (entries : nat)
| AttrNone.

(** [if func:] *)
Definition attr_truthy (a : pyattr) : bool :=
  match a with
  | AttrMethod _ => true
  | AttrDict n => negb (Nat.eqb n 0)
  | AttrNone => false
  end.

(** [getattr(self, 'actor_{0}'.format(name), None)]: besides the six
    functions, the instance attribute [actor_links] set by [_init] and the
    class attribute [actor_functions] set by the metaclass carry the
    prefix. *)
Definition getattr_actor_ (s : actor) (name : string) : pyattr :=
  if String.eqb name "callback" then AttrMethod actor_callback
  else if String.eqb name "stop" then AttrMethod actor_stop
  else if String.eqb name "notify" then AttrMethod actor_notify
  else if String.eqb name "on_actor_exit" then AttrMethod actor_on_actor_exit
  else if String.eqb name "info" then AttrMethod actor_info
  else if String.eqb name "ping" then AttrMethod actor_ping
  else if String.eqb name "links" then
    match actor_links s with
    | Some d => AttrDict (length d)
    | None => AttrNone
    end
  else if String.eqb name "functions" then AttrDict (size actor_functions)
  else AttrNone.

(** ** Calling a function with [(caller, *args, **kwargs)] *)

Fixpoint kw_lookup (k : string) (kwargs : list (string * pyval)) : option pyval :=
  match kwargs with
  | [] => None
  | (k', v) :: rest => if String.eqb k k' then Some v else kw_lookup k rest
  end.

(** Parameters not filled by position take their keyword, else their
    default; one with neither is a [TypeError] ([None] here). *)
Fixpoint bind_keywords (ps : list (string * option pyval))
    (kwargs : list (string * pyval)) : option (list pyval) :=
  match ps with
  | [] => Some []
  | (p, d) :: rest =>
      match kw_lookup p kwargs, d with
      | Some v, _ | None, Some v => cons v <$> bind_keywords rest kwargs
      | None, None => None
      end
  end.

(** Python's binding of a call to a parameter list: too many positional
    arguments, a keyword that names no parameter, a parameter given twice or
    a parameter left without value make the call a [TypeError]. *)
Fixpoint bind (ps : list (string * option pyval)) (args : list pyval)
    (kwargs : list (string * pyval)) : option (list pyval) :=
  match args, ps with
  | [], _ =>
      if forallb (fun kv => existsb (fun p => String.eqb (fst kv) (fst p)) ps)
           kwargs
      then bind_keywords ps kwargs
      else None
  | _ :: _, [] => None
  | a :: args', (p, _) :: ps' =>
      match kw_lookup p kwargs with
      | Some _ => None
      | None => cons a <$> bind ps' args' kwargs
      end
  end.

(** ** Stopping *)

(** [Actor.stop].  Every constructed actor has an [ioloop] ([_init] sets
    it), so the [hasattr] test holds.  [EvIOLoopStop] is the call
    [self._stop_ioloop()] together with the callback added to what it
    returns; the loop runs that callback, [_stop], once it has stopped. *)
Definition stop (s : actor) : actor :=
  if is_alive s && negb (_stopping s) then
    let s1 := set_stopping true s in
    let s2 := emit (EvHook OnStop) s1 in
    if on_stop_result s2 then s2 else emit EvIOLoopStop s2
  else s.

(** [Actor._stop] *)
Definition _stop (s : actor) : actor :=
  if _stopping s then
    let s1 := emit (EvHook OnExit) s in
    let s2 := set_state CLOSE s1 in
    let s3 := emit EvRemoveLoopTask s2 in
    let s4 := if negb (is_monitor s3)
              then emit (EvSend (arbiter_ref s3) "on_actor_exit" []) s3
              else s3 in
    let s5 := set_stopping false s4 in
    emit EvInboxClose s5
  else s.

Definition terminate (s : actor) : actor := stop s.

Definition shut_down (s : actor) : actor :=
  match arbiter s with
  | Some _ => emit (EvSend (Some RefArbiter) "stop" []) s
  | None => s
  end.

(** ** Handling a request *)

Definition set_sup_notified (t : pyval) (p : supervisor) : supervisor :=
  {| sup_aid := sup_aid p; sup_notified := Some t |}.

(** The body of a built-in function, on bound arguments. *)
Definition call_builtin (h : builtin) (caller : option actor_ref)
    (vals : list pyval) (s : actor) : actor * (exn + pyval) :=
  match h, vals with
  | actor_callback, [rid; result] =>
      (emit (EvWaiterCallback rid result) s, inr VNone)
  | actor_stop, [] => (stop s, inr VNone)
  | actor_notify, [t] =>
      match caller with
      | None => (s, inl AttributeError)
      | Some RefSelfProxy => (s, inr VNone)
      | Some (RefLinked a) =>
          (set_linked_actors
             (alter (fun _ => {| la_notified := Some t |}) a (_linked_actors s)) s,
           inr VNone)
      | Some RefArbiter =>
          (set_arbiter (set_sup_notified t <$> arbiter s) s, inr VNone)
      | Some RefMonitor =>
          (set_monitor (set_sup_notified t <$> monitor s) s, inr VNone)
      end
  | actor_on_actor_exit, [_] =>
      match caller ≫= ref_aid s with
      | None => (s, inl AttributeError)
      | Some a =>
          match _linked_actors s !! a with
          | Some _ => (set_linked_actors (delete a (_linked_actors s)) s, inr VNone)
          | None => (s, inl (KeyError a))
          end
      end
  | actor_info, [] => (s, inr (VInfo (info s)))
  | actor_ping, [] => (s, inr (VStr "pong"))
  | _, _ => (s, inl TypeError)
  end.

(** [Actor.handle_request_from_actor]: the state after the call and the
    exception that leaves it, if any. *)
Definition handle_request_from_actor (caller : option actor_ref)
    (r : request) (s : actor) : actor * option exn :=
  let func := getattr_actor_ s (req_name r) in
  if attr_truthy func then
    match func with
    | AttrMethod h =>
        let ack := default true (ack_attr h) in
        match bind (params h) (req_args r) (req_kwargs r) with
        | None => (s, Some TypeError)
        | Some vals =>
            match call_builtin h caller vals s with
            | (s1, inl e) => (s1, Some e)
            | (s1, inr result) =>
                if ack
                then (emit (EvSend caller "callback" [VStr (req_rid r); result]) s1,
                      None)
                else (s1, None)
            end
        end
    | _ => (s, Some TypeError)
    end
  else (s, None).

(** ** The mailbox loop *)

(** The body of the inner [try] of [flush] up to the test on [closing].
    What [get_actor] returns is an object, which is true; [None] is not. *)
Definition process (closing : bool) (r : request) (s : actor)
    : actor * option exn :=
  let actor := get_actor (req_aid r) s in
  if negb (bool_decide (is_Some actor)) && negb closing
  then (emit (EvLogInfo LogUnlinked) s, None)
  else handle_request_from_actor actor r s.

(** The [while True] loop of [flush] on what the inbox still holds.  A
    request object is always true.  An exception of the inner [try] is logged
    and the loop goes round again: the [break] of the non-closing case lies
    inside the [try] and is not reached. *)
Fixpoint flush_loop (closing : bool) (pending : list inbox_entry) (s : actor)
    : actor :=
  match pending with
  | [] => set_inbox [] s
  | IOFault :: rest => set_inbox rest s
  | Msg r :: rest =>
      match process closing r (set_inbox rest s) with
      | (s1, Some e) =>
          flush_loop closing rest (emit (EvLogError (LogRequestError e)) s1)
      | (s1, None) =>
          if closing then flush_loop closing rest s1 else s1
      end
  end.

(** [Actor.flush].  Nothing modelled here escapes the loop, so the
    [logerror] decorator has nothing to log. *)
Definition flush (closing : bool) (s : actor) : actor :=
  flush_loop closing (_inbox s) s.

(** ** The periodic task: [Actor.__call__] *)

(** [if x:] on a float: true unless [x == 0.0]; a NaN is true. *)
Definition num_truthy (x : float) : bool := negb (PrimFloat.eqb x 0).

(** The tolerance of the heartbeat, [tole]: the rounded product
    [ACTOR_TIMEOUT_TOLERANCE*self.timeout]. *)
Definition tolerance (s : actor) : float :=
  if negb (num_truthy (_timeout s)) then DEFAULT_ACTOR_TIMEOUT
  else PrimFloat.mul ACTOR_TIMEOUT_TOLERANCE (_timeout s).

(** The value of [nt] when [if nt:] is reached, [now] being what [time()]
    returned. *)
Definition heartbeat_nt (now : float) (s : actor) : option float :=
  match last_notified s with
  | Some last =>
      if PrimFloat.ltb (PrimFloat.sub now last) (tolerance s)
      then None else Some now
  | None => Some now
  end.

(** The heartbeat block of [__call__]. *)
Definition heartbeat (now : float) (s : actor) : actor :=
  if bool_decide (is_Some (arbiter s)) && negb (is_monitor s) then
    match heartbeat_nt now s with
    | Some nt =>
        if num_truthy nt
        then emit (EvSend (Some RefArbiter) "notify" [VNum nt])
               (set_last_notified (Some nt) s)
        else s
    | None => s
    end
  else s.

(** The heartbeat is due when nothing was notified yet or the test
    [nt - self.last_notified < tole] of the code fails. *)
Definition due (now : float) (s : actor) : Prop :=
  last_notified s = None
  \/ exists last,
       last_notified s = Some last
       /\ PrimFloat.ltb (PrimFloat.sub now last) (tolerance s) = false.

Definition not_due (now : float) (s : actor) : Prop :=
  exists last,
    last_notified s = Some last
    /\ PrimFloat.ltb (PrimFloat.sub now last) (tolerance s) = true.

(** [Actor.__call__], called by the event loop at each iteration. *)
Definition __call__ (now : float) (s : actor) : actor :=
  let s1 := flush false s in
  let s2 := heartbeat now s1 in
  if negb (_stopping s2) then emit (EvHook OnTask) s2 else s2.

(** ** The event loop and the run call *)

(** What can happen to the actor while [self.ioloop.start()] runs or, for
    the calls of its public interface, at any other time: the loop runs the
    periodic task, someone calls [stop], the loop runs the callback added by
    [stop], the inbox is flushed, [link] is called (and raises), the backend
    puts an entry on the inbox. *)
Inductive loop_op :=
| LTick (now : float)
| LStop
| LStopped
| LFlush (closing : bool)
| LLink (a : string)
| LShutDown
| LDeliver (e : inbox_entry).

Definition run_op (o : loop_op) (s : actor) : actor :=
  match o with
  | LTick now => __call__ now s
  | LStop => stop s
  | LStopped => _stop s
  | LFlush closing => flush closing s
  | LLink a => fst (link a s)
  | LShutDown => shut_down s
  | LDeliver e => set_inbox (_inbox s ++ [e]) s
  end.

Definition run_ops (ops : list loop_op) (s : actor) : actor :=
  foldl (fun acc o => run_op o acc) s ops.

(** How [self.ioloop.start()] ends. *)
Inductive loop_outcome :=
| LoopReturns
| LoopRaises (e : exn).

(** [Actor._run]: the state when the call is left and the exception that
    leaves it, if any.  [script] is what happens while the loop runs. *)
Definition _run (script : list loop_op) (o : loop_outcome) (s : actor)
    : actor * option exn :=
  let s1 := run_ops script (emit EvIOLoopStart s) in
  let finally_ (s : actor) := _stop (emit (EvLogInfo LogExiting) s) in
  match o with
  | LoopReturns => (finally_ s1, None)
  | LoopRaises e =>
      if is_Exception e
      then (finally_ (emit (EvLogException (LogWorkerException e)) s1), None)
      else (finally_ s1, Some e)
  end.

(** What [start] gives back to its caller. *)
Inductive start_result :=
| ReturnsSelf
| ReturnsNone
| Raises (e : exn).

(** [Actor.start].  The configuration of the logging is an event. *)
Definition start (script : list loop_op) (o : loop_outcome) (s : actor)
    : actor * start_result :=
  if (_state s =? INITIAL)%Z then
    let s1 := if isprocess s then emit EvConfigureLogging s else s in
    let s2 := emit (EvHook OnStart) s1 in
    let s3 := emit (EvLogInfo LogBooting) s2 in
    let s4 := set_state RUN s3 in
    match _run script o s4 with
    | (s5, Some e) => (s5, Raises e)
    | (s5, None) => (s5, ReturnsSelf)
    end
  else (s, ReturnsNone).

(** A call of the public interface. *)
Inductive api_call :=
| CallStart (script : list loop_op) (o : loop_outcome)
| Call (o : loop_op).

Definition run_call (c : api_call) (s : actor) : actor :=
  match c with
  | CallStart script o => fst (start script o s)
  | Call o => run_op o s
  end.

Definition run_calls (cs : list api_call) (s : actor) : actor :=
  foldl (fun acc c => run_call c acc) s cs.

(** ** Reading a trace *)

Fixpoint count (p : event -> bool) (l : list event) : nat :=
  match l with
  | [] => O
  | e :: l' => if p e then S (count p l') else count p l'
  end.

Definition is_on_exit (e : event) : bool :=
  match e with EvHook OnExit => true | _ => false end.

Definition is_on_task (e : event) : bool :=
  match e with EvHook OnTask => true | _ => false end.

Definition is_inbox_close (e : event) : bool :=
  match e with EvInboxClose => true | _ => false end.

Definition is_remove_task (e : event) : bool :=
  match e with EvRemoveLoopTask => true | _ => false end.

Definition is_exit_notice (e : event) : bool :=
  match e with EvSend _ n _ => String.eqb n "on_actor_exit" | _ => false end.

(** A [callback] message sent through the proxy. *)
Definition is_callback (e : event) : bool :=
  match e with EvSend _ n _ => String.eqb n "callback" | _ => false end.

(** A [notify] message sent through the proxy. *)
Definition is_notify (e : event) : bool :=
  match e with EvSend _ n _ => String.eqb n "notify" | _ => false end.

(** The events the body of a built-in function can add to the trace. *)
Definition builtin_event (e : event) : bool :=
  match e with
  | EvWaiterCallback _ _ | EvHook OnStop | EvIOLoopStop => true
  | _ => false
  end.

(** The events a flush can add to the trace. *)
Definition flush_event (e : event) : bool :=
  match e with
  | EvLogInfo LogUnlinked | EvLogError (LogRequestError _)
  | EvWaiterCallback _ _ | EvHook OnStop | EvIOLoopStop => true
  | EvSend _ n _ => String.eqb n "callback"
  | _ => false
  end.

(** The events a call can add to the trace without finalizing the actor. *)
Definition plain_event (e : event) : bool :=
  negb (is_on_exit e || is_inbox_close e || is_remove_task e
        || is_exit_notice e).

(** What [_stop] adds to the trace when its body runs. *)
Definition finalize_events (s : actor) : list event :=
  [EvHook OnExit; EvRemoveLoopTask]
  ++ (if is_monitor s then []
      else [EvSend (arbiter_ref s) "on_actor_exit" []])
  ++ [EvInboxClose].

(** What the [except] and [finally] clauses of [_run] log before [_stop]. *)
Definition exit_log (o : loop_outcome) : list event :=
  match o with
  | LoopReturns => [EvLogInfo LogExiting]
  | LoopRaises e =>
      if is_Exception e
      then [EvLogException (LogWorkerException e); EvLogInfo LogExiting]
      else [EvLogInfo LogExiting]
  end.

(** The exception that leaves [_run]: the one the loop raised when
    [except Exception] does not catch it. *)
Definition propagated (o : loop_outcome) : option exn :=
  match o with
  | LoopReturns => None
  | LoopRaises e => if is_Exception e then None else Some e
  end.

(** ** Invariant of the lifecycle *)

(** The stopping flag is only up while the actor runs, the state is one of
    the three the code assigns, and the trace holds one finalization exactly
    when the state is [CLOSE]. *)
Record lifecycle_inv (s : actor) : Prop := {
  inv_stopping : _stopping s = true -> _state s = RUN;
  inv_state : _state s = INITIAL \/ _state s = RUN \/ _state s = CLOSE;
  inv_on_exit :
    count is_on_exit (trace s) = if (_state s =? CLOSE)%Z then 1%nat else 0%nat;
  inv_close :
    count is_inbox_close (trace s) = if (_state s =? CLOSE)%Z then 1%nat else 0%nat;
  inv_remove :
    count is_remove_task (trace s) = if (_state s =? CLOSE)%Z then 1%nat else 0%nat;
  inv_notice :
    count is_exit_notice (trace s) =
    if (_state s =? CLOSE)%Z && negb (is_monitor s) then 1%nat else 0%nat
}.

(** What a call that does not finalize the actor may change: the attributes
    given at construction stay, the state stays, a raised stopping flag
    stays up and is raised only on a running actor, a supervisor stays the
    one it is, and the trace grows by events allowed by [allowed]. *)
Record evolves (allowed : event -> bool) (s s' : actor) : Prop := {
  ev_impl : _impl s' = _impl s;
  ev_aid : _aid s' = _aid s;
  ev_timeout : _timeout s' = _timeout s;
  ev_on_stop : on_stop_result s' = on_stop_result s;
  ev_links : actor_links s' = actor_links s;
  ev_arbiter : sup_aid <$> arbiter s' = sup_aid <$> arbiter s;
  ev_monitor : sup_aid <$> monitor s' = sup_aid <$> monitor s;
  ev_state : _state s' = _state s;
  ev_last : last_notified s' = last_notified s;
  ev_stopping_up : _stopping s = true -> _stopping s' = true;
  ev_stopping_new : _stopping s' = true -> _stopping s = true \/ _state s = RUN;
  ev_trace : exists d, trace s' = trace s ++ d /\ forallb allowed d = true
}.

(** ** Sample actors *)

Definition thread_backend : backend :=
  {| b_impl := "thread"; b_aid := "worker-1"; b_inbox := []; b_timeout := 10 |}.

Definition monitor_backend : backend :=
  {| b_impl := "monitor"; b_aid := "pool-1"; b_inbox := []; b_timeout := 0 |}.

Definition sample_env : os_env :=
  {| env_pid := 4242; env_thread := "Thread-1"; env_process := "MainProcess" |}.

Definition the_arbiter : supervisor :=
  {| sup_aid := "arbiter"; sup_notified := None |}.

Definition the_monitor : supervisor :=
  {| sup_aid := "pool-1"; sup_notified := None |}.

(** A thread worker supervised by an arbiter and a monitor. *)
Definition worker : actor :=
  __init__ thread_backend sample_env (Some the_arbiter) (Some the_monitor)
    None false.

(** A monitor, which lives in the arbiter's process. *)
Definition pool_monitor : actor :=
  __init__ monitor_backend sample_env (Some the_arbiter) None None false.

(** An actor whose registry holds [a]: an entry that code outside [Actor]
    put there, [link] being unable to. *)
Definition with_linked (a : string) (s : actor) : actor :=
  set_linked_actors (<[a := {| la_notified := None |}]> (_linked_actors s)) s.

Definition mk_request (sender name rid : string) (args : list pyval) : request :=
  {| req_aid := sender; req_name := name; req_args := args;
     req_kwargs := []; req_rid := rid |}.

(** The worker once started, as the event loop sees it before its first
    iteration. *)
Definition running_worker : actor :=
  emit EvIOLoopStart
    (set_state RUN
       (emit (EvLogInfo LogBooting) (emit (EvHook OnStart) worker))).

(** The running worker after a call of [stop]. *)
Definition stopping_worker : actor := stop running_worker.

(** The running worker with three entries in its inbox: an exit notice from
    the arbiter, which is not a linked actor, and two pings. *)
Definition busy_worker : actor :=
  run_ops [LDeliver (Msg (mk_request "arbiter" "on_actor_exit" "r0" []));
           LDeliver (Msg (mk_request "arbiter" "ping" "r1" []));
           LDeliver (Msg (mk_request "arbiter" "ping" "r2" []))]
    running_worker.

(** ** Reading the metaclass, the inbox and the heartbeat *)

(** The entry a class attribute gives to the table, if any. *)
Definition own_entry (km : string * class_attr) : option (string * bool) :=
  match snd km with
  | CMethod ack =>
      if String.prefix fprefix (fst km)
      then Some (strip_prefix (fst km), default true ack)
      else None
  | CData => None
  end.

(** The entries that come from the class body alone. *)
Definition own_functions (attrs : list (string * class_attr))
    : gmap string bool :=
  foldl (fun c km =>
           match own_entry km with
           | Some kv => <[fst kv := snd kv]> c
           | None => c
           end) ∅ attrs.

(** The entries that come from the bases alone: one pass of the loop over
    [bases[::-1]] on an empty dictionary. *)
Definition inherited_functions (bases : list (option (gmap string bool)))
    : gmap string bool :=
  foldl (fun c base =>
           match base with
           | Some rbase => c ∪ rbase
           | None => c
           end) ∅ (rev bases).

(** What is left of an inbox once a closing flush has gone through it: the
    entries behind the first I/O fault. *)
Fixpoint after_fault (l : list inbox_entry) : list inbox_entry :=
  match l with
  | [] => []
  | IOFault :: rest => rest
  | Msg _ :: rest => after_fault rest
  end.

(** The [rid] a callback carries. *)
Definition callback_rid (e : event) : option pyval :=
  match e with
  | EvSend _ n (rid :: _) => if String.eqb n "callback" then Some rid else None
  | _ => None
  end.

(** The [rid] of an inbox entry. *)
Definition entry_rid (e : inbox_entry) : option pyval :=
  match e with
  | Msg r => Some (VStr (req_rid r))
  | IOFault => None
  end.

(** The time a heartbeat carries. *)
Definition notify_time (e : event) : option float :=
  match e with
  | EvSend _ n [VNum t] => if String.eqb n "notify" then Some t else None
  | _ => None
  end.

(** Between successive times the test [t2 - t1 < tole] fails: they are at
    least [tole] apart. *)
Fixpoint gapped (tole : float) (l : list float) : Prop :=
  match l with
  | t1 :: rest =>
      match rest with
      | t2 :: _ =>
          PrimFloat.ltb (PrimFloat.sub t2 t1) tole = false /\ gapped tole rest
      | [] => True
      end
  | [] => True
  end.

Definition is_on_stop (e : event) : bool :=
  match e with EvHook OnStop => true | _ => false end.

Definition is_loop_stop (e : event) : bool :=
  match e with EvIOLoopStop => true | _ => false end.

(** The events that neither the lifecycle nor the heartbeat is about: logs,
    callbacks and [stop] messages sent, waiters resolved, the [on_task] hook
    and the start of the loop. *)
Definition passive_event (e : event) : bool :=
  match e with
  | EvLogInfo _ | EvLogError _ | EvLogException _ | EvWaiterCallback _ _
  | EvHook OnTask | EvIOLoopStart => true
  | EvSend _ n _ => String.eqb n "callback" || String.eqb n "stop"
  | _ => false
  end.

(** The actor as [start] hands it to the run call. *)
Definition booted (s : actor) : actor :=
  set_state RUN
    (emit (EvLogInfo LogBooting)
       (emit (EvHook OnStart)
          (if isprocess s then emit EvConfigureLogging s else s))).

(** A subclass of [Actor] that answers [echo], turns the acknowledgement of
    [ping] off and declares nothing else. *)
Definition Echo_attrs : list (string * class_attr) :=
  [ ("__module__", CData); ("actor_echo", CMethod None);
    ("actor_ping", CMethod (Some false)) ].

(** [on_stop] has been called, and the loop asked to stop, once the actor is
    stopping or closed and not before; the loop is not asked when [on_stop]
    says that it did the work. *)
Definition stop_counted (s : actor) : Prop :=
  count is_on_stop (trace s)
  = (if _stopping s || (_state s =? CLOSE)%Z then 1%nat else 0%nat)
  /\ count is_loop_stop (trace s)
     = (if on_stop_result s then 0%nat
        else if _stopping s || (_state s =? CLOSE)%Z then 1%nat else 0%nat).

(** The heartbeats of the trace are at least [tole] apart and
    [last_notified] is the time of the last one. *)
Definition heartbeats_spaced (s : actor) : Prop :=
  gapped (tolerance s) (omap notify_time (trace s))
  /\ last_notified s = last (omap notify_time (trace s))
  /\ count is_notify (trace s) = length (omap notify_time (trace s)).

(** An actor that has no arbiter, or is a monitor, and has sent no
    heartbeat. *)
Definition unsupervised (s : actor) : Prop :=
  (arbiter s = None \/ is_monitor s = true)
  /\ count is_notify (trace s) = 0%nat
  /\ last_notified s = None.

(** What the constructor fixes: the implementation, the aid, the timeout,
    the process id of the parent, the environment, the links handed over,
    the [on_stop] hook and who the supervisors are. *)
Definition same_config (s0 s : actor) : Prop :=
  _impl s = _impl s0 /\ _aid s = _aid s0 /\ _timeout s = _timeout s0
  /\ _ppid s = _ppid s0 /\ env s = env s0
  /\ actor_links s = actor_links s0
  /\ on_stop_result s = on_stop_result s0
  /\ sup_aid <$> arbiter s = sup_aid <$> arbiter s0
  /\ sup_aid <$> monitor s = sup_aid <$> monitor s0.

(** An error logged by [flush]. *)
Definition is_error_log (e : event) : bool :=
  match e with EvLogError _ => true | _ => false end.

Definition is_on_start (e : event) : bool :=
  match e with EvHook OnStart => true | _ => false end.

Definition is_configure_logging (e : event) : bool :=
  match e with EvConfigureLogging => true | _ => false end.

(** [on_start] has been called once the state has left [INITIAL] and not
    before, and the logging configured then on a process. *)
Definition start_counted (s : actor) : Prop :=
  count is_on_start (trace s)
  = (if (_state s =? INITIAL)%Z then 0%nat else 1%nat)
  /\ count is_configure_logging (trace s)
     = (if (_state s =? INITIAL)%Z then 0%nat
        else if isprocess s then 1%nat else 0%nat).

(** * Properties *)

Create HintDb actor.

(** Case analysis on the comparison of a name with a literal. *)
Ltac case_name :=
  match goal with
  | |- context [String.eqb ?a ?b] => destruct (String.eqb_spec a b)
  end.

(** ** Traces *)

Lemma count_app (p : event -> bool) (l d : list event) :
  count p (l ++ d) = (count p l + count p d)%nat.
Proof.
  induction l as [|e l IH]; simpl; [reflexivity|].
  destruct (p e); rewrite IH; reflexivity.
Qed.

Lemma count_none (p allowed : event -> bool) (d : list event) :
  (forall e, allowed e = true -> p e = false) ->
  forallb allowed d = true -> count p d = O.
Proof.
  intros Hp. induction d as [|e d IH]; simpl; [reflexivity|].
  intros [He Hd]%andb_true_iff. rewrite (Hp e He). auto.
Qed.

Lemma forallb_weaken (p q : event -> bool) (d : list event) :
  (forall e, p e = true -> q e = true) ->
  forallb p d = true -> forallb q d = true.
Proof.
  intros Hpq. induction d as [|e d IH]; simpl; [reflexivity|].
  intros [He Hd]%andb_true_iff. rewrite (Hpq e He). auto.
Qed.

Lemma builtin_event_flush (e : event) : builtin_event e = true -> flush_event e = true.
Proof.
  destruct e as [| | |h|m|m|m| | |t n a|r v|]; try discriminate; try reflexivity.
  destruct h; try discriminate; reflexivity.
Qed.

Lemma builtin_event_not_callback (e : event) :
  builtin_event e = true -> is_callback e = false.
Proof. destruct e; try discriminate; reflexivity. Qed.

Lemma flush_event_plain (e : event) : flush_event e = true -> plain_event e = true.
Proof.
  destruct e as [| | |h|m|m|m| | |t n a|r v|]; try discriminate; try reflexivity.
  - destruct h; try discriminate; reflexivity.
  - simpl. intros ->%String.eqb_eq. reflexivity.
Qed.

Lemma flush_event_not_notify (e : event) : flush_event e = true -> is_notify e = false.
Proof.
  destruct e as [| | |h|m|m|m| | |t n a|r v|]; try discriminate; try reflexivity.
  simpl. intros ->%String.eqb_eq. reflexivity.
Qed.

Lemma flush_event_not_on_task (e : event) : flush_event e = true -> is_on_task e = false.
Proof.
  destruct e as [| | |h|m|m|m| | |t n a|r v|]; try discriminate; try reflexivity.
  destruct h; try discriminate; reflexivity.
Qed.

Lemma plain_not_on_exit (e : event) : plain_event e = true -> is_on_exit e = false.
Proof. unfold plain_event. destruct (is_on_exit e); [discriminate|reflexivity]. Qed.

Lemma plain_not_close (e : event) : plain_event e = true -> is_inbox_close e = false.
Proof.
  unfold plain_event. destruct (is_inbox_close e); [|reflexivity].
  rewrite orb_true_r. discriminate.
Qed.

Lemma plain_not_notice (e : event) : plain_event e = true -> is_exit_notice e = false.
Proof.
  unfold plain_event. destruct (is_exit_notice e); [|reflexivity].
  rewrite !orb_true_r. discriminate.
Qed.

Lemma plain_not_remove (e : event) : plain_event e = true -> is_remove_task e = false.
Proof.
  unfold plain_event. destruct (is_remove_task e); [|reflexivity].
  rewrite !orb_true_r. discriminate.
Qed.

(** ** Calls that do not finalize *)

Lemma evolves_refl (allowed : event -> bool) (s : actor) : evolves allowed s s.
Proof.
  constructor; auto. exists []. split; [symmetry; apply app_nil_r|reflexivity].
Qed.

Lemma evolves_trans (allowed : event -> bool) (s1 s2 s3 : actor) :
  evolves allowed s1 s2 -> evolves allowed s2 s3 -> evolves allowed s1 s3.
Proof.
  intros [] []. constructor; try congruence; auto.
  - intros H. destruct (ev_stopping_new1 H) as [H2|H2]; [auto|].
    right. congruence.
  - destruct ev_trace0 as (d1 & E1 & F1), ev_trace1 as (d2 & E2 & F2).
    exists (d1 ++ d2). split.
    + rewrite E2, E1, app_assoc. reflexivity.
    + rewrite forallb_app, F1, F2. reflexivity.
Qed.

Lemma evolves_weaken (p q : event -> bool) (s s' : actor) :
  (forall e, p e = true -> q e = true) -> evolves p s s' -> evolves q s s'.
Proof.
  intros Hpq []. constructor; auto.
  destruct ev_trace0 as (d & E & F). exists d. eauto using forallb_weaken.
Qed.

Lemma evolves_emit (allowed : event -> bool) (e : event) (s : actor) :
  allowed e = true -> evolves allowed s (emit e s).
Proof.
  intros He. constructor; simpl; auto.
  exists [e]. simpl. rewrite He. auto.
Qed.

Lemma evolves_set_inbox (allowed : event -> bool) (v : list inbox_entry) (s : actor) :
  evolves allowed s (set_inbox v s).
Proof.
  constructor; simpl; auto. exists []. rewrite app_nil_r. auto.
Qed.

Lemma evolves_set_linked (allowed : event -> bool)
    (v : gmap string linked_actor) (s : actor) :
  evolves allowed s (set_linked_actors v s).
Proof.
  constructor; simpl; auto. exists []. rewrite app_nil_r. auto.
Qed.

Lemma evolves_notified_arbiter (allowed : event -> bool) (t : pyval) (s : actor) :
  evolves allowed s (set_arbiter (set_sup_notified t <$> arbiter s) s).
Proof.
  constructor; simpl; auto.
  - destruct (arbiter s); reflexivity.
  - exists []. rewrite app_nil_r. auto.
Qed.

Lemma evolves_notified_monitor (allowed : event -> bool) (t : pyval) (s : actor) :
  evolves allowed s (set_monitor (set_sup_notified t <$> monitor s) s).
Proof.
  constructor; simpl; auto.
  - destruct (monitor s); reflexivity.
  - exists []. rewrite app_nil_r. auto.
Qed.

Lemma evolves_stop_builtin (s : actor) : evolves builtin_event s (stop s).
Proof.
  unfold stop, is_alive.
  destruct (Z.eqb_spec (_state s) RUN) as [Hrun|Hrun]; simpl;
    [|apply evolves_refl].
  destruct (_stopping s) eqn:Hst; simpl; [apply evolves_refl|].
  destruct (on_stop_result s).
  - constructor; simpl; auto.
    exists [EvHook OnStop]. auto.
  - constructor; simpl; auto.
    exists [EvHook OnStop; EvIOLoopStop]. rewrite <- app_assoc. auto.
Qed.

Lemma evolves_stop (s : actor) : evolves flush_event s (stop s).
Proof.
  apply (evolves_weaken builtin_event);
    [apply builtin_event_flush|apply evolves_stop_builtin].
Qed.

#[local] Hint Resolve evolves_refl evolves_emit evolves_set_inbox
  evolves_set_linked evolves_notified_arbiter evolves_notified_monitor
  evolves_stop_builtin : actor.

Lemma evolves_call_builtin_own (h : builtin) (caller : option actor_ref)
    (vals : list pyval) (s : actor) :
  evolves builtin_event s (fst (call_builtin h caller vals s)).
Proof.
  destruct h; simpl;
    repeat (destruct vals as [|? vals]; simpl; auto with actor).
  - destruct caller as [[]|]; simpl; auto with actor.
  - destruct (caller ≫= ref_aid s) as [a|]; simpl; auto with actor.
    destruct (_linked_actors s !! a); simpl; auto with actor.
Qed.

Lemma evolves_call_builtin (h : builtin) (caller : option actor_ref)
    (vals : list pyval) (s : actor) :
  evolves flush_event s (fst (call_builtin h caller vals s)).
Proof.
  apply (evolves_weaken builtin_event);
    [apply builtin_event_flush|apply evolves_call_builtin_own].
Qed.

Lemma evolves_handle_request (caller : option actor_ref) (r : request) (s : actor) :
  evolves flush_event s (fst (handle_request_from_actor caller r s)).
Proof.
  unfold handle_request_from_actor.
  destruct (attr_truthy _); [|apply evolves_refl].
  destruct (getattr_actor_ s (req_name r)) as [h| |]; try apply evolves_refl.
  destruct (bind _ _ _) as [vals|]; [|apply evolves_refl].
  pose proof (evolves_call_builtin h caller vals s) as H.
  destruct (call_builtin h caller vals s) as [s1 [e|v]]; simpl in *; [exact H|].
  destruct (default true (ack_attr h)); simpl; [|exact H].
  eapply evolves_trans; [exact H|]. apply evolves_emit. reflexivity.
Qed.

Lemma evolves_process (closing : bool) (r : request) (s : actor) :
  evolves flush_event s (fst (process closing r s)).
Proof.
  unfold process. destruct (_ && _).
  - simpl. apply evolves_emit. reflexivity.
  - apply evolves_handle_request.
Qed.

Lemma evolves_flush_loop (closing : bool) (pending : list inbox_entry) (s : actor) :
  evolves flush_event s (flush_loop closing pending s).
Proof.
  revert s. induction pending as [|[r|] rest IH]; intros s; simpl;
    auto with actor.
  pose proof (evolves_process closing r (set_inbox rest s)) as H.
  destruct (process closing r (set_inbox rest s)) as [s1 [e|]]; simpl in H.
  - eapply evolves_trans; [apply evolves_set_inbox|].
    eapply evolves_trans; [exact H|].
    eapply evolves_trans; [|apply IH]. apply evolves_emit. reflexivity.
  - eapply evolves_trans; [apply evolves_set_inbox|].
    destruct closing; [|exact H].
    eapply evolves_trans; [exact H|apply IH].
Qed.

Lemma evolves_flush (closing : bool) (s : actor) :
  evolves flush_event s (flush closing s).
Proof. apply evolves_flush_loop. Qed.

(** ** The lifecycle invariant *)

Lemma inv_init (impl : backend) (e : os_env) (arb mon : option supervisor)
    (links : option (list (string * string))) (d : bool) :
  lifecycle_inv (__init__ impl e arb mon links d).
Proof. constructor; simpl; auto; discriminate. Qed.

Lemma inv_evolves (allowed : event -> bool) (s s' : actor) :
  (forall e, allowed e = true -> plain_event e = true) ->
  evolves allowed s s' -> lifecycle_inv s -> lifecycle_inv s'.
Proof.
  intros Hplain Hev [].
  destruct Hev as [Himpl _ _ _ _ _ _ Hstate _ _ Hnew (d & Hd & Hall)].
  apply (forallb_weaken _ _ _ Hplain) in Hall.
  constructor; unfold is_monitor;
    rewrite ?Himpl, ?Hstate, ?Hd, ?count_app; auto.
  - intros H. destruct (Hnew H); auto.
  - rewrite (count_none _ _ _ plain_not_on_exit Hall). lia.
  - rewrite (count_none _ _ _ plain_not_close Hall). lia.
  - rewrite (count_none _ _ _ plain_not_remove Hall). lia.
  - rewrite (count_none _ _ _ plain_not_notice Hall).
    fold (is_monitor s). lia.
Qed.

Lemma inv_flush (closing : bool) (s : actor) :
  lifecycle_inv s -> lifecycle_inv (flush closing s).
Proof.
  apply (inv_evolves flush_event); [apply flush_event_plain|apply evolves_flush].
Qed.

Lemma inv_stop (s : actor) : lifecycle_inv s -> lifecycle_inv (stop s).
Proof.
  apply (inv_evolves flush_event); [apply flush_event_plain|apply evolves_stop].
Qed.

Lemma inv_emit_plain (e : event) (s : actor) :
  plain_event e = true -> lifecycle_inv s -> lifecycle_inv (emit e s).
Proof.
  intros He. apply (inv_evolves plain_event); [auto|].
  apply evolves_emit, He.
Qed.

Lemma inv_heartbeat (now : float) (s : actor) :
  lifecycle_inv s -> lifecycle_inv (heartbeat now s).
Proof.
  intros Hinv. unfold heartbeat.
  destruct (_ && _); [|exact Hinv].
  destruct (heartbeat_nt now s) as [nt|]; [|exact Hinv].
  destruct (num_truthy nt); [|exact Hinv].
  apply inv_emit_plain; [reflexivity|].
  destruct Hinv. constructor; simpl; auto.
Qed.

Lemma inv_call (now : float) (s : actor) :
  lifecycle_inv s -> lifecycle_inv (__call__ now s).
Proof.
  intros Hinv. unfold __call__.
  pose proof (inv_heartbeat now _ (inv_flush false s Hinv)) as H.
  destruct (negb _); [|exact H].
  apply inv_emit_plain; [reflexivity|exact H].
Qed.

(** [_stop] on a stopping actor: the trace grows by the finalization events,
    nothing else. *)
Lemma _stop_body (s : actor) :
  _stopping s = true ->
  trace (_stop s) = trace s ++ finalize_events s
  /\ _state (_stop s) = CLOSE
  /\ _stopping (_stop s) = false.
Proof.
  intros Hst. unfold _stop, finalize_events. rewrite Hst. simpl.
  destruct (is_monitor s) eqn:Hm; unfold is_monitor in *; simpl;
    rewrite Hm; simpl; rewrite <- ?app_assoc; auto.
Qed.

Lemma _stop_idle (s : actor) : _stopping s = false -> _stop s = s.
Proof. intros Hst. unfold _stop. rewrite Hst. reflexivity. Qed.

Lemma count_finalize_events (s : actor) :
  count is_on_exit (finalize_events s) = 1%nat
  /\ count is_inbox_close (finalize_events s) = 1%nat
  /\ count is_remove_task (finalize_events s) = 1%nat
  /\ count is_exit_notice (finalize_events s)
     = if is_monitor s then 0%nat else 1%nat.
Proof. unfold finalize_events. destruct (is_monitor s); simpl; auto. Qed.

Lemma _stop_impl (s : actor) : _impl (_stop s) = _impl s.
Proof.
  unfold _stop. destruct (_stopping s); [|reflexivity].
  simpl. destruct (negb _); reflexivity.
Qed.

Lemma inv__stop (s : actor) : lifecycle_inv s -> lifecycle_inv (_stop s).
Proof.
  intros Hinv. destruct (_stopping s) eqn:Hst.
  - destruct (_stop_body s Hst) as (Ht & Hs & Hf).
    destruct (count_finalize_events s) as (C1 & C2 & C3 & C4).
    destruct Hinv as [Hrun _ I1 I2 I3 I4]. rewrite (Hrun Hst) in *.
    simpl in *.
    constructor; unfold is_monitor;
      rewrite ?_stop_impl, ?Ht, ?Hs, ?Hf, ?count_app, ?C1, ?C2, ?C3, ?C4;
      fold (is_monitor s); simpl; auto; try lia; try discriminate.
    rewrite I4. destruct (is_monitor s); reflexivity.
  - rewrite _stop_idle; auto.
Qed.

Lemma inv_run_op (o : loop_op) (s : actor) :
  lifecycle_inv s -> lifecycle_inv (run_op o s).
Proof.
  destruct o; simpl.
  - apply inv_call.
  - apply inv_stop.
  - apply inv__stop.
  - apply inv_flush.
  - auto.
  - unfold shut_down. destruct (arbiter s); auto.
    apply inv_emit_plain. reflexivity.
  - apply (inv_evolves plain_event); auto. apply evolves_set_inbox.
Qed.

Lemma inv_run_ops (ops : list loop_op) (s : actor) :
  lifecycle_inv s -> lifecycle_inv (run_ops ops s).
Proof.
  revert s. induction ops as [|o ops IH]; intros s Hinv; simpl; auto.
  apply IH, inv_run_op, Hinv.
Qed.

Lemma inv__run (script : list loop_op) (o : loop_outcome) (s : actor) :
  lifecycle_inv s -> lifecycle_inv (fst (_run script o s)).
Proof.
  intros Hinv. unfold _run.
  assert (lifecycle_inv (run_ops script (emit EvIOLoopStart s))) as H.
  { apply inv_run_ops, inv_emit_plain; auto. }
  destruct o as [|e]; [|destruct (is_Exception e)]; simpl;
    repeat first [apply inv__stop | apply inv_emit_plain; [reflexivity|]];
    exact H.
Qed.

Lemma inv_boot (s : actor) :
  lifecycle_inv s -> _state s = INITIAL ->
  lifecycle_inv
    (set_state RUN
       (emit (EvLogInfo LogBooting)
          (emit (EvHook OnStart)
             (if isprocess s then emit EvConfigureLogging s else s)))).
Proof.
  intros [Hst _ I1 I2 I3 I4] H0. rewrite H0 in *. simpl in *.
  constructor; simpl; auto;
    destruct (isprocess s); simpl; rewrite ?count_app; simpl;
    rewrite ?count_app; simpl; rewrite ?I1, ?I2, ?I3, ?I4; try reflexivity;
    intros H; apply Hst in H; discriminate.
Qed.

Lemma inv_start (script : list loop_op) (o : loop_outcome) (s : actor) :
  lifecycle_inv s -> lifecycle_inv (fst (start script o s)).
Proof.
  intros Hinv. unfold start.
  destruct (Z.eqb_spec (_state s) INITIAL) as [H0|H0]; [|exact Hinv].
  pose proof (inv__run script o _ (inv_boot s Hinv H0)) as H.
  destruct (_run script o _) as [s5 [e|]]; exact H.
Qed.

Lemma inv_run_call (c : api_call) (s : actor) :
  lifecycle_inv s -> lifecycle_inv (run_call c s).
Proof. destruct c; simpl; [apply inv_start|apply inv_run_op]. Qed.

Lemma inv_run_calls (cs : list api_call) (s : actor) :
  lifecycle_inv s -> lifecycle_inv (run_calls cs s).
Proof.
  revert s. induction cs as [|c cs IH]; intros s Hinv; simpl; auto.
  apply IH, inv_run_call, Hinv.
Qed.

(** ** The run call and the finalization *)


Lemma _stop_after_log (l : list event) (s : actor) :
  let logged := foldl (fun acc e => emit e acc) s l in
  (_stopping s = true ->
   _state (_stop logged) = CLOSE /\ _stopping (_stop logged) = false
   /\ trace (_stop logged) = trace s ++ l ++ finalize_events s)
  /\ (_stopping s = false ->
      _state (_stop logged) = _state s /\ _stopping (_stop logged) = false
      /\ trace (_stop logged) = trace s ++ l).
Proof.
  simpl.
  assert (forall l s, let s' := foldl (fun acc e => emit e acc) s l in
            _stopping s' = _stopping s /\ _state s' = _state s
            /\ trace s' = trace s ++ l
            /\ finalize_events s' = finalize_events s) as Hlog.
  { clear. induction l as [|e l IH]; intros s; simpl.
    - rewrite app_nil_r. auto.
    - destruct (IH (emit e s)) as (H1 & H2 & H3 & H4).
      rewrite H1, H2, H3, H4. simpl. rewrite <- app_assoc. auto. }
  destruct (Hlog l s) as (H1 & H2 & H3 & H4). split; intros Hst.
  - rewrite <- H1 in Hst. destruct (_stop_body _ Hst) as (Ht & Hs & Hf).
    rewrite Ht, Hs, Hf, H3, H4, <- app_assoc. auto.
  - rewrite <- H1 in Hst. rewrite (_stop_idle _ Hst). auto.
Qed.

Lemma _run_unfold (script : list loop_op) (o : loop_outcome) (s : actor) :
  _run script o s
  = (_stop (foldl (fun acc e => emit e acc)
              (run_ops script (emit EvIOLoopStart s)) (exit_log o)),
     propagated o).
Proof.
  unfold _run, exit_log, propagated.
  destruct o as [|e]; [reflexivity|]. destruct (is_Exception e); reflexivity.
Qed.

(** ** The state only moves forward *)

Lemma heartbeat_frame (now : float) (s : actor) :
  _state (heartbeat now s) = _state s
  /\ _stopping (heartbeat now s) = _stopping s
  /\ _impl (heartbeat now s) = _impl s
  /\ _inbox (heartbeat now s) = _inbox s
  /\ _linked_actors (heartbeat now s) = _linked_actors s.
Proof.
  unfold heartbeat. destruct (_ && _); [|auto].
  destruct (heartbeat_nt now s) as [nt|]; [|auto].
  destruct (num_truthy nt); simpl; auto.
Qed.

Lemma __call___state (now : float) (s : actor) : _state (__call__ now s) = _state s.
Proof.
  unfold __call__.
  destruct (heartbeat_frame now (flush false s)) as (H & _).
  destruct (negb _); simpl; rewrite H; apply (ev_state _ _ _ (evolves_flush false s)).
Qed.

Lemma run_op_monotone (o : loop_op) (s : actor) :
  lifecycle_inv s -> (_state s <= _state (run_op o s))%Z.
Proof.
  intros Hinv. destruct o; simpl.
  - rewrite __call___state. lia.
  - rewrite (ev_state _ _ _ (evolves_stop s)). lia.
  - destruct (_stopping s) eqn:Hst.
    + destruct (_stop_body s Hst) as (_ & -> & _).
      rewrite (inv_stopping s Hinv Hst). discriminate.
    + rewrite (_stop_idle s Hst). lia.
  - rewrite (ev_state _ _ _ (evolves_flush closing s)). lia.
  - simpl. lia.
  - unfold shut_down. destruct (arbiter s); simpl; lia.
  - simpl. lia.
Qed.

Lemma run_ops_monotone (ops : list loop_op) (s : actor) :
  lifecycle_inv s -> (_state s <= _state (run_ops ops s))%Z.
Proof.
  revert s. induction ops as [|o ops IH]; intros s Hinv; simpl; [lia|].
  pose proof (run_op_monotone o s Hinv).
  pose proof (IH _ (inv_run_op o s Hinv)). unfold run_ops in *. lia.
Qed.

Lemma _run_monotone (script : list loop_op) (o : loop_outcome) (s : actor) :
  lifecycle_inv s -> (_state s <= _state (fst (_run script o s)))%Z.
Proof.
  intros Hinv. rewrite _run_unfold. cbn [fst].
  set (at_exit := run_ops script (emit EvIOLoopStart s)).
  assert (lifecycle_inv at_exit) as Hexit.
  { apply inv_run_ops, inv_emit_plain; auto. }
  assert (_state s <= _state at_exit)%Z as Hle.
  { apply (run_ops_monotone script (emit EvIOLoopStart s)).
    apply inv_emit_plain; auto. }
  destruct (_stop_after_log (exit_log o) at_exit) as [Hup Hdown].
  cbv zeta in Hup, Hdown.
  destruct (_stopping at_exit) eqn:Hst.
  - destruct (Hup eq_refl) as (-> & _).
    destruct (inv_state _ Hinv) as [H|[H|H]]; rewrite H; discriminate.
  - destruct (Hdown eq_refl) as (-> & _). exact Hle.
Qed.

(** [start] on an actor in its initial state: the hooks, then the run call
    on an actor whose state is [RUN]. *)
Lemma start_initial (script : list loop_op) (o : loop_outcome) (s : actor) :
  _state s = INITIAL ->
  let booted :=
    set_state RUN
      (emit (EvLogInfo LogBooting)
         (emit (EvHook OnStart)
            (if isprocess s then emit EvConfigureLogging s else s))) in
  fst (start script o s) = fst (_run script o booted)
  /\ snd (start script o s)
     = match propagated o with Some e => Raises e | None => ReturnsSelf end.
Proof.
  intros H0. unfold start. rewrite H0. simpl.
  rewrite _run_unfold. destruct (propagated o); auto.
Qed.

Lemma start_not_initial (script : list loop_op) (o : loop_outcome) (s : actor) :
  _state s <> INITIAL -> start script o s = (s, ReturnsNone).
Proof.
  intros H0. unfold start.
  destruct (Z.eqb_spec (_state s) INITIAL); [contradiction|reflexivity].
Qed.

Lemma start_monotone (script : list loop_op) (o : loop_outcome) (s : actor) :
  lifecycle_inv s ->
  (_state s <= _state (fst (start script o s)))%Z
  /\ _state (fst (start script o s)) <> INITIAL.
Proof.
  intros Hinv. destruct (Z.eq_dec (_state s) INITIAL) as [H0|H0].
  - destruct (start_initial script o s H0) as [-> _].
    pose proof (_run_monotone script o _ (inv_boot s Hinv H0)) as H.
    simpl in H. rewrite H0. unfold INITIAL, RUN in *. lia.
  - rewrite (start_not_initial script o s H0). simpl. split; [lia|exact H0].
Qed.

Lemma run_call_monotone (c : api_call) (s : actor) :
  lifecycle_inv s -> (_state s <= _state (run_call c s))%Z.
Proof.
  intros Hinv. destruct c; simpl.
  - apply start_monotone, Hinv.
  - apply run_op_monotone, Hinv.
Qed.

(** C5.  On an actor built by the constructor and used through any
    sequence of calls, the state stays within [INITIAL], [RUN], [CLOSE] and
    no call makes it decrease.  [start] on a state other than [INITIAL]
    changes nothing; from [INITIAL] it calls the hooks, sets the state to
    [RUN], enters the run call and returns the actor unless [SystemExit]
    leaves the run call; once [start] has been called a further call changes
    nothing.  [stop] changes nothing on an actor that is stopping or whose
    state is at least [CLOSE].  [started] is [state >= RUN] and [stopped] is
    [state >= CLOSE]. *)
Theorem C5_lifecycle_state_monotone :
  (forall impl e arb mon links d cs c,
     let s := run_calls cs (__init__ impl e arb mon links d) in
     (INITIAL <= _state s <= CLOSE)%Z
     /\ (_state s <= _state (run_call c s))%Z)
  /\ (forall script o s,
        _state s <> INITIAL -> start script o s = (s, ReturnsNone))
  /\ (forall script o s,
        _state s = INITIAL ->
        exists booted,
          _state booted = RUN
          /\ trace booted
             = trace s ++ (if isprocess s then [EvConfigureLogging] else [])
               ++ [EvHook OnStart; EvLogInfo LogBooting]
          /\ fst (start script o s) = fst (_run script o booted)
          /\ snd (start script o s)
             = match propagated o with
               | Some e => Raises e
               | None => ReturnsSelf
               end)
  /\ (forall impl e arb mon links d cs script o script' o',
        let s := run_calls cs (__init__ impl e arb mon links d) in
        let s1 := fst (start script o s) in
        start script' o' s1 = (s1, ReturnsNone))
  /\ (forall s, _stopping s = true \/ (CLOSE <= _state s)%Z -> stop s = s)
  /\ (forall s, started s = true <-> (_state s >= RUN)%Z)
  /\ (forall s, stopped s = true <-> (_state s >= CLOSE)%Z).
Proof.
  repeat apply conj.
  - intros impl e arb mon links d cs c s.
    pose proof (inv_run_calls cs _ (inv_init impl e arb mon links d)) as Hinv.
    fold s in Hinv. split; [|apply run_call_monotone, Hinv].
    destruct (inv_state s Hinv) as [H|[H|H]]; rewrite H;
      unfold INITIAL, RUN, CLOSE; lia.
  - apply start_not_initial.
  - intros script o s H0. eexists. split; [|split; [|apply (start_initial script o s H0)]].
    + reflexivity.
    + simpl. destruct (isprocess s); simpl; rewrite <- ?app_assoc; reflexivity.
  - intros impl e arb mon links d cs script o script' o' s s1.
    apply start_not_initial. apply start_monotone.
    apply inv_run_calls, inv_init.
  - intros s H. unfold stop, is_alive.
    destruct H as [H|H]; [rewrite H, andb_false_r; reflexivity|].
    destruct (Z.eqb_spec (_state s) RUN) as [E|E]; [|reflexivity].
    rewrite E in H. unfold CLOSE, RUN in H. lia.
  - intros s. unfold started. rewrite Z.geb_leb, Z.leb_le. lia.
  - intros s. unfold stopped. rewrite Z.geb_leb, Z.leb_le. lia.
Qed.

(** ** Addressing *)

(** C7.  [get_actor] tries, in this order, the actor's own aid (giving the
    actor's proxy), the linked actors, the arbiter and the monitor, and
    returns nothing when none of them has the aid; what it returns has the
    aid asked for. *)
Theorem C7_get_actor_priority (a : string) (s : actor) :
  (a = _aid s -> get_actor a s = Some RefSelfProxy)
  /\ (a <> _aid s -> is_Some (_linked_actors s !! a) ->
      get_actor a s = Some (RefLinked a))
  /\ (a <> _aid s -> _linked_actors s !! a = None ->
      sup_aid <$> arbiter s = Some a ->
      get_actor a s = Some RefArbiter)
  /\ (a <> _aid s -> _linked_actors s !! a = None ->
      sup_aid <$> arbiter s <> Some a ->
      sup_aid <$> monitor s = Some a ->
      get_actor a s = Some RefMonitor)
  /\ (a <> _aid s -> _linked_actors s !! a = None ->
      sup_aid <$> arbiter s <> Some a ->
      sup_aid <$> monitor s <> Some a ->
      get_actor a s = None)
  /\ (forall r, get_actor a s = Some r -> ref_aid s r = Some a).
Proof.
  assert (forall o, is_sup a o = true <-> sup_aid <$> o = Some a) as Hsup.
  { intros [p|]; simpl; [|split; discriminate].
    rewrite bool_decide_eq_true. split; [intros ->; reflexivity|congruence]. }
  assert (forall o, sup_aid <$> o <> Some a -> is_sup a o = false) as Hnot.
  { intros o H. destruct (is_sup a o) eqn:E; [|reflexivity].
    apply Hsup in E. contradiction. }
  unfold get_actor. repeat apply conj.
  - intros ->. rewrite bool_decide_eq_true_2; reflexivity.
  - intros Hne Hl. rewrite bool_decide_eq_false_2 by exact Hne.
    rewrite bool_decide_eq_true_2 by exact Hl. reflexivity.
  - intros Hne Hl Ha. rewrite bool_decide_eq_false_2 by exact Hne.
    rewrite bool_decide_eq_false_2 by (rewrite Hl; apply is_Some_None).
    apply Hsup in Ha. rewrite Ha. reflexivity.
  - intros Hne Hl Ha Hm. rewrite bool_decide_eq_false_2 by exact Hne.
    rewrite bool_decide_eq_false_2 by (rewrite Hl; apply is_Some_None).
    rewrite (Hnot _ Ha). apply Hsup in Hm. rewrite Hm. reflexivity.
  - intros Hne Hl Ha Hm. rewrite bool_decide_eq_false_2 by exact Hne.
    rewrite bool_decide_eq_false_2 by (rewrite Hl; apply is_Some_None).
    rewrite (Hnot _ Ha), (Hnot _ Hm). reflexivity.
  - intros r. case_bool_decide as H1; [intros [= <-]; simpl; congruence|].
    case_bool_decide as H2; [intros [= <-]; reflexivity|].
    destruct (is_sup a (arbiter s)) eqn:Ea;
      [intros [= <-]; simpl; apply Hsup, Ea|].
    destruct (is_sup a (monitor s)) eqn:Em;
      [intros [= <-]; simpl; apply Hsup, Em|discriminate].
Qed.

(** The order matters when aids coincide: a linked actor that has the
    arbiter's aid is found in the linked actors, and the actor's own aid is
    never looked up there. *)
Lemma get_actor_examples :
  get_actor "worker-1" (with_linked "worker-1" worker) = Some RefSelfProxy
  /\ get_actor "arbiter" (with_linked "arbiter" worker) = Some (RefLinked "arbiter")
  /\ get_actor "arbiter" worker = Some RefArbiter
  /\ get_actor "pool-1" worker = Some RefMonitor
  /\ get_actor "stranger" worker = None.
Proof. repeat split; reflexivity. Qed.

(** ** Dispatch *)

Lemma substring_all (n : string) : String.substring 0 (String.length n) n = n.
Proof. induction n as [|c n IH]; simpl; [reflexivity|]. rewrite IH. reflexivity. Qed.

Lemma strip_prefix_app (n : string) : strip_prefix (fprefix +:+ n) = n.
Proof.
  unfold strip_prefix, fprefix. simpl. rewrite !Nat.sub_0_r.
  apply substring_all.
Qed.

Lemma prefix_fprefix (n : string) : String.prefix fprefix (fprefix +:+ n) = true.
Proof. unfold fprefix. cbn. destruct n; reflexivity. Qed.

Lemma merge_bases_keeps (bases : list (option (gmap string bool)))
    (cont : gmap string bool) (n : string) (v : bool) :
  cont !! n = Some v ->
  foldl (fun c base =>
           match base with
           | Some rbase => c ∪ rbase
           | None => c
           end) cont bases !! n = Some v.
Proof.
  revert cont. induction bases as [|[rbase|] bases IH]; intros cont H; simpl;
    [exact H| |apply IH, H].
  apply IH. apply lookup_union_Some_l, H.
Qed.

(** In any class built by the metaclass, a function [actor_<n>] declared
    last in the class body is in the table with its [ack] attribute, and
    with [True] when it has none, whatever the bases hold. *)
Lemma metaclass_ack_default (bases : list (option (gmap string bool)))
    (attrs : list (string * class_attr)) (n : string) (ack : option bool) :
  ActorMetaClass_new bases (attrs ++ [(fprefix +:+ n, CMethod ack)]) !! n
  = Some (default true ack).
Proof.
  unfold ActorMetaClass_new. rewrite foldl_app.
  cbn [foldl fst snd]. rewrite prefix_fprefix, strip_prefix_app.
  apply merge_bases_keeps, lookup_insert_eq.
Qed.

(** The table built by the metaclass for [Actor]. *)
Lemma actor_functions_table :
  actor_functions
  = <["callback" := false]> (<["stop" := false]> (<["notify" := false]>
      (<["on_actor_exit" := false]> (<["info" := true]>
         (<["ping" := true]> ∅))))).
Proof. vm_compute. reflexivity. Qed.

(** The functions that [handle_request_from_actor] finds are the entries of
    the table, with the same acknowledgement flag. *)
Lemma getattr_method_in_table (s : actor) (name : string) (h : builtin) :
  getattr_actor_ s name = AttrMethod h <->
  actor_functions !! name = Some (default true (ack_attr h))
  /\ name = match h with
            | actor_callback => "callback"
            | actor_stop => "stop"
            | actor_notify => "notify"
            | actor_on_actor_exit => "on_actor_exit"
            | actor_info => "info"
            | actor_ping => "ping"
            end.
Proof.
  split.
  - unfold getattr_actor_.
    do 6 (case_name; [subst name; intros [= <-]; split; [vm_compute|];
                      reflexivity|]).
    case_name; [destruct (actor_links s); discriminate|].
    case_name; discriminate.
  - intros [_ ->]. destruct h; reflexivity.
Qed.

Lemma not_in_table (s : actor) (name : string) :
  actor_functions !! name = None ->
  forall h, getattr_actor_ s name <> AttrMethod h.
Proof.
  intros Hnone h Hh. apply getattr_method_in_table in Hh as [Hh _]. congruence.
Qed.

(** C8, as stated, fails for the name [functions]: it is in no dispatch
    table, but [actor_functions] is an attribute of the actor, the table
    itself, which is true and cannot be called.  The dispatch raises
    [TypeError]; the flush logs the error and, not closing, goes on to the
    next request. *)
Lemma C8_counterexample :
  ~ (forall (caller : option actor_ref) (r : request) (s : actor),
       actor_functions !! req_name r = None ->
       handle_request_from_actor caller r s = (s, None)).
Proof.
  intros H.
  pose proof (H (Some RefArbiter) (mk_request "arbiter" "functions" "r7" [])
                running_worker eq_refl) as H1.
  vm_compute in H1. discriminate H1.
Qed.

(** The flush of that request: the error is logged and the ping behind it is
    taken and answered by the same flush. *)
Lemma functions_request_is_logged :
  let s := run_ops [LDeliver (Msg (mk_request "arbiter" "functions" "r7" []));
                    LDeliver (Msg (mk_request "arbiter" "ping" "r8" []))]
             running_worker in
  _inbox (flush false s) = []
  /\ trace (flush false s)
     = trace s ++ [EvLogError (LogRequestError TypeError);
                   EvSend (Some RefArbiter) "callback"
                     [VStr "r8"; VStr "pong"]].
Proof. split; reflexivity. Qed.

(** C8, amended.  A request whose name is not in the dispatch table leaves
    the actor as it is, trace included: no handler runs and no callback is
    sent.  When the actor has no true attribute [actor_<name>] the call
    returns normally and the request is dropped in silence; that is so for
    every name but [functions] and [links].  When it has one, the attribute
    is not a function and the call raises [TypeError]. *)
Theorem C8_unknown_name_dropped (caller : option actor_ref) (r : request)
    (s : actor) :
  actor_functions !! req_name r = None ->
  fst (handle_request_from_actor caller r s) = s
  /\ (attr_truthy (getattr_actor_ s (req_name r)) = false ->
      handle_request_from_actor caller r s = (s, None))
  /\ (attr_truthy (getattr_actor_ s (req_name r)) = true ->
      handle_request_from_actor caller r s = (s, Some TypeError))
  /\ (req_name r <> "functions" -> req_name r <> "links" ->
      handle_request_from_actor caller r s = (s, None)).
Proof.
  intros Hnone. pose proof (not_in_table s _ Hnone) as Hno.
  unfold handle_request_from_actor. repeat apply conj.
  - destruct (attr_truthy _); [|reflexivity].
    destruct (getattr_actor_ s (req_name r)) as [h| |]; try reflexivity.
    destruct (Hno h eq_refl).
  - intros ->. reflexivity.
  - intros ->.
    destruct (getattr_actor_ s (req_name r)) as [h| |]; try reflexivity.
    destruct (Hno h eq_refl).
  - intros Hf Hl.
    assert (getattr_actor_ s (req_name r) = AttrNone) as ->; [|reflexivity].
    revert Hno. unfold getattr_actor_.
    do 6 (case_name; [intros Hno; edestruct Hno; reflexivity|]).
    do 2 (case_name; [contradiction|]). reflexivity.
Qed.

Lemma C8_unknown_name_dropped_witness :
  actor_functions !! "pong" = None
  /\ fst (handle_request_from_actor (Some RefArbiter)
            (mk_request "arbiter" "pong" "r7" []) running_worker)
     = running_worker.
Proof.
  split; [vm_compute; reflexivity|].
  apply (C8_unknown_name_dropped (Some RefArbiter)
           (mk_request "arbiter" "pong" "r7" []) running_worker).
  vm_compute. reflexivity.
Defined.

(** A call whose arguments do not fit the parameters of the function is a
    [TypeError]: nothing runs and nothing is sent. *)
Lemma ill_formed_call_raises (caller : option actor_ref) (r : request)
    (s : actor) (h : builtin) :
  getattr_actor_ s (req_name r) = AttrMethod h ->
  bind (params h) (req_args r) (req_kwargs r) = None ->
  handle_request_from_actor caller r s = (s, Some TypeError).
Proof.
  intros Hattr Hbind. unfold handle_request_from_actor.
  rewrite Hattr. simpl. rewrite Hbind. reflexivity.
Qed.

(** The two functions that acknowledge, [actor_info] and [actor_ping],
    return whatever the caller is. *)
Lemma acknowledged_call_returns (h : builtin) (caller : option actor_ref)
    (r : request) (vals : list pyval) (s : actor) :
  default true (ack_attr h) = true ->
  bind (params h) (req_args r) (req_kwargs r) = Some vals ->
  exists v, call_builtin h caller vals s = (s, inr v).
Proof.
  intros Hack Hbind. destruct h; try discriminate Hack; simpl in Hbind;
    destruct (req_args r); try discriminate Hbind;
    destruct (forallb _ _); try discriminate Hbind;
    injection Hbind as <-; simpl; eauto.
Qed.

(** C3, as stated, fails when the arguments of the request do not fit the
    function: a ping that comes with an argument resolves, its [ack] flag is
    true, the call raises [TypeError] and no callback is sent. *)
Lemma C3_counterexample :
  ~ (forall (caller : option actor_ref) (r : request) (s : actor)
            (h : builtin),
       getattr_actor_ s (req_name r) = AttrMethod h ->
       default true (ack_attr h) = true ->
       count is_callback (trace (fst (handle_request_from_actor caller r s)))
       = S (count is_callback (trace s))).
Proof.
  intros H.
  pose proof (H (Some RefArbiter) (mk_request "arbiter" "ping" "r1" [VNum 1])
                running_worker actor_ping eq_refl eq_refl) as H1.
  vm_compute in H1. discriminate H1.
Qed.

(** C3, amended.  When the name of a request resolves to a function of the
    dispatch table and its arguments fit the parameters of that function,
    whether a callback is sent is decided by the [ack] flag of the function,
    which is true unless the function sets it, in the call as in the table
    the metaclass builds for any class.  With the flag true the call returns
    and exactly one callback goes to the caller, carrying the request's
    [rid] and the value returned.  With the flag false the trace grows by
    what the function itself does, which is never a callback. *)
Theorem C3_ack_flag_governs_callback (caller : option actor_ref)
    (r : request) (s : actor) (h : builtin) (vals : list pyval) :
  getattr_actor_ s (req_name r) = AttrMethod h ->
  bind (params h) (req_args r) (req_kwargs r) = Some vals ->
  let ack := default true (ack_attr h) in
  let s' := fst (handle_request_from_actor caller r s) in
  let raised := snd (handle_request_from_actor caller r s) in
  (ack_attr h = None -> ack = true)
  /\ actor_functions !! req_name r = Some ack
  /\ (forall bases attrs n,
        ActorMetaClass_new bases (attrs ++ [(fprefix +:+ n, CMethod None)]) !! n
        = Some true)
  /\ exists d,
       trace s' = trace s ++ d
       /\ (ack = true ->
           raised = None
           /\ count is_callback d = 1%nat
           /\ exists s1 v,
                call_builtin h caller vals s = (s1, inr v)
                /\ last d = Some (EvSend caller "callback" [VStr (req_rid r); v]))
       /\ (ack = false -> count is_callback d = 0%nat).
Proof.
  intros Hattr Hbind ack s' raised.
  split; [intros Hnone; subst ack; rewrite Hnone; reflexivity|].
  split; [apply (getattr_method_in_table s), Hattr|].
  split; [intros bases attrs n; apply (metaclass_ack_default bases attrs n None)|].
  subst s' raised. unfold handle_request_from_actor. rewrite Hattr. simpl.
  fold ack. rewrite Hbind.
  destruct ack eqn:Hack.
  - destruct (acknowledged_call_returns h caller r vals s Hack Hbind)
      as [v Hcall].
    rewrite Hcall. simpl.
    exists [EvSend caller "callback" [VStr (req_rid r); v]].
    split; [reflexivity|]. split; [|discriminate]. intros _. eauto 6.
  - pose proof (evolves_call_builtin_own h caller vals s) as Hev.
    destruct (ev_trace _ _ _ Hev) as (d & Hd & Hall).
    pose proof (count_none _ _ _ builtin_event_not_callback Hall) as H0.
    destruct (call_builtin h caller vals s) as [s1 [e|v]]; simpl in *;
      exists d; (split; [exact Hd|]); (split; [discriminate|auto]).
Qed.

(** A ping from the arbiter is answered by one callback. *)
Lemma C3_ack_flag_governs_callback_witness :
  getattr_actor_ running_worker "ping" = AttrMethod actor_ping
  /\ bind (params actor_ping) [] [] = Some []
  /\ exists d,
       trace (fst (handle_request_from_actor (Some RefArbiter)
                     (mk_request "arbiter" "ping" "r1" []) running_worker))
       = trace running_worker ++ d
       /\ count is_callback d = 1%nat.
Proof.
  split; [reflexivity|]. split; [reflexivity|].
  destruct (C3_ack_flag_governs_callback (Some RefArbiter)
              (mk_request "arbiter" "ping" "r1" []) running_worker actor_ping
              [] eq_refl eq_refl)
    as (_ & _ & _ & d & Htr & Hack & _).
  exists d. split; [exact Htr|]. apply Hack; reflexivity.
Defined.

(** The whole trace of that call, and of a ping that comes with an argument. *)
Lemma ping_examples :
  handle_request_from_actor (Some RefArbiter)
    (mk_request "arbiter" "ping" "r1" []) running_worker
  = (emit (EvSend (Some RefArbiter) "callback" [VStr "r1"; VStr "pong"])
       running_worker, None)
  /\ handle_request_from_actor (Some RefArbiter)
       (mk_request "arbiter" "ping" "r1" [VNum 1]) running_worker
     = (running_worker, Some TypeError).
Proof. split; reflexivity. Qed.

(** ** The mailbox loop *)

Lemma stop_inbox (s : actor) : _inbox (stop s) = _inbox s.
Proof.
  unfold stop. destruct (_ && _); [|reflexivity].
  simpl. destruct (on_stop_result s); reflexivity.
Qed.

Lemma call_builtin_inbox (h : builtin) (caller : option actor_ref)
    (vals : list pyval) (s : actor) :
  _inbox (fst (call_builtin h caller vals s)) = _inbox s.
Proof.
  destruct h; simpl;
    repeat (destruct vals as [|? vals]; simpl; auto using stop_inbox).
  - destruct caller as [[]|]; reflexivity.
  - destruct (caller ≫= ref_aid s) as [a|]; simpl; auto.
    destruct (_linked_actors s !! a); reflexivity.
Qed.

Lemma handle_request_inbox (caller : option actor_ref) (r : request) (s : actor) :
  _inbox (fst (handle_request_from_actor caller r s)) = _inbox s.
Proof.
  unfold handle_request_from_actor.
  destruct (attr_truthy _); [|reflexivity].
  destruct (getattr_actor_ s (req_name r)) as [h| |]; try reflexivity.
  destruct (bind _ _ _) as [vals|]; [|reflexivity].
  pose proof (call_builtin_inbox h caller vals s) as H.
  destruct (call_builtin h caller vals s) as [s1 [e|v]]; simpl in *; [exact H|].
  destruct (default true (ack_attr h)); exact H.
Qed.

Lemma flush_unfold (closing : bool) (r : request) (rest : list inbox_entry)
    (s : actor) :
  _inbox s = Msg r :: rest ->
  flush closing s
  = match process closing r (set_inbox rest s) with
    | (s1, Some e) =>
        flush_loop closing rest (emit (EvLogError (LogRequestError e)) s1)
    | (s1, None) => if closing then flush_loop closing rest s1 else s1
    end.
Proof. intros H. unfold flush. rewrite H. reflexivity. Qed.

(** C9.  A request whose sender [get_actor] does not resolve: while
    closing it is handed to [handle_request_from_actor] with no caller and the
    drain goes on with the rest of the inbox; when not closing it is logged
    as coming from an un-linked actor, no handler runs and the flush ends. *)
Theorem C9_unresolved_sender_dispatched_when_closing (r : request)
    (rest : list inbox_entry) (s : actor) :
  get_actor (req_aid r) s = None ->
  _inbox s = Msg r :: rest ->
  process true r s = handle_request_from_actor None r s
  /\ (let handled := handle_request_from_actor None r (set_inbox rest s) in
      flush true s
      = flush true
          (match snd handled with
           | Some e => emit (EvLogError (LogRequestError e)) (fst handled)
           | None => fst handled
           end))
  /\ process false r s = (emit (EvLogInfo LogUnlinked) s, None)
  /\ flush false s = emit (EvLogInfo LogUnlinked) (set_inbox rest s).
Proof.
  intros Hnone Hinbox.
  assert (forall c, process c r (set_inbox rest s)
                    = if c then handle_request_from_actor None r (set_inbox rest s)
                      else (emit (EvLogInfo LogUnlinked) (set_inbox rest s), None))
    as Hproc.
  { intros c. unfold process.
    change (get_actor (req_aid r) (set_inbox rest s))
      with (get_actor (req_aid r) s).
    rewrite Hnone. destruct c; reflexivity. }
  repeat apply conj.
  - unfold process. rewrite Hnone. reflexivity.
  - cbv zeta. rewrite (flush_unfold true r rest s Hinbox), Hproc.
    pose proof (handle_request_inbox None r (set_inbox rest s)) as Hin.
    destruct (handle_request_from_actor None r (set_inbox rest s))
      as [s1 [e|]]; simpl in *; unfold flush; simpl; rewrite Hin; reflexivity.
  - unfold process. rewrite Hnone. reflexivity.
  - rewrite (flush_unfold false r rest s Hinbox), Hproc. reflexivity.
Qed.

(** The running worker with a ping from an actor it does not know. *)
Lemma C9_unresolved_sender_witness :
  let s := run_ops [LDeliver (Msg (mk_request "stranger" "ping" "r9" []))]
             running_worker in
  trace (flush true s)
  = trace s ++ [EvSend None "callback" [VStr "r9"; VStr "pong"]]
  /\ trace (flush false s) = trace s ++ [EvLogInfo LogUnlinked].
Proof.
  cbv zeta.
  destruct (C9_unresolved_sender_dispatched_when_closing
              (mk_request "stranger" "ping" "r9" []) []
              (run_ops [LDeliver (Msg (mk_request "stranger" "ping" "r9" []))]
                 running_worker))
    as (_ & H1 & _ & H2); [reflexivity|reflexivity|].
  rewrite H1, H2. split; reflexivity.
Defined.



(** An actor of the registry that signals its exit is removed and no longer
    resolves. *)
Lemma linked_actor_exit_unlinks :
  let s := with_linked "peer" running_worker in
  let s' := fst (handle_request_from_actor (get_actor "peer" s)
                   (mk_request "peer" "on_actor_exit" "r3" []) s) in
  get_actor "peer" s = Some (RefLinked "peer")
  /\ get_actor "peer" s' = None.
Proof. split; reflexivity. Qed.

(** C2, failing input.  A flush that is not closing, on an inbox holding an
    exit notice from the arbiter and two pings: the notice raises [KeyError],
    the error is logged, and the same flush takes the first ping as well and
    answers it.  Two requests have left the inbox in one flush. *)
Theorem C2_flush_processes_two_after_error :
  _inbox busy_worker
  = [Msg (mk_request "arbiter" "on_actor_exit" "r0" []);
     Msg (mk_request "arbiter" "ping" "r1" []);
     Msg (mk_request "arbiter" "ping" "r2" [])]
  /\ _inbox (flush false busy_worker)
     = [Msg (mk_request "arbiter" "ping" "r2" [])]
  /\ trace (flush false busy_worker)
     = trace busy_worker
       ++ [EvLogError (LogRequestError (KeyError "arbiter"));
           EvSend (Some RefArbiter) "callback" [VStr "r1"; VStr "pong"]].
Proof. repeat split; reflexivity. Qed.

(** The general form: after a request whose processing raises, a flush
    goes on with the rest of the inbox, closing or not. *)
Lemma flush_goes_on_after_error (closing : bool) (r : request)
    (rest : list inbox_entry) (s s1 : actor) (e : exn) :
  _inbox s = Msg r :: rest ->
  process closing r (set_inbox rest s) = (s1, Some e) ->
  flush closing s = flush closing (emit (EvLogError (LogRequestError e)) s1).
Proof.
  intros Hin Hproc. rewrite (flush_unfold closing r rest s Hin), Hproc.
  assert (_inbox (fst (process closing r (set_inbox rest s))) = rest) as H.
  { unfold process. destruct (_ && _); [reflexivity|].
    apply handle_request_inbox. }
  rewrite Hproc in H. simpl in H. unfold flush. simpl. rewrite H. reflexivity.
Qed.

(** What [flush] does in the other cases: an empty inbox or an I/O fault
    ends it with no event; a request handled without exception ends a flush
    that is not closing. *)
Lemma flush_ends (closing : bool) (s : actor) :
  (_inbox s = [] -> flush closing s = s)
  /\ (forall rest, _inbox s = IOFault :: rest ->
        flush closing s = set_inbox rest s)
  /\ (forall r rest s1, _inbox s = Msg r :: rest ->
        process false r (set_inbox rest s) = (s1, None) ->
        flush false s = s1 /\ _inbox s1 = rest).
Proof.
  repeat apply conj.
  - intros H. unfold flush. rewrite H. simpl. destruct s; simpl in *.
    rewrite H. reflexivity.
  - intros rest H. unfold flush. rewrite H. reflexivity.
  - intros r rest s1 H Hproc. rewrite (flush_unfold false r rest s H), Hproc.
    split; [reflexivity|].
    assert (_inbox (fst (process false r (set_inbox rest s))) = rest) as Hin.
    { unfold process. destruct (_ && _); [reflexivity|].
      apply handle_request_inbox. }
    rewrite Hproc in Hin. exact Hin.
Qed.

(** A closing flush goes on until the inbox is empty or faults. *)
Lemma flush_closing_drains (s : actor) :
  Forall (fun e => e <> IOFault) (_inbox s) -> _inbox (flush true s) = [].
Proof.
  unfold flush. generalize (_inbox s). intros pending. revert s.
  induction pending as [|[r|] rest IH]; intros s Hall; simpl.
  - reflexivity.
  - inversion Hall; subst.
    destruct (process true r (set_inbox rest s)) as [s1 [e|]]; apply IH; auto.
  - inversion Hall; subst. contradiction.
Qed.

(** ** The heartbeat *)

(** *** Comparisons of floats *)





Lemma num_truthy_nonzero (x : float) :
  num_truthy x = true <-> PrimFloat.eqb x 0 = false.
Proof. unfold num_truthy. apply negb_true_iff. Qed.

(** *** The tolerance and the test *)


(** The product is the rounded one: with a timeout of 43 the tolerance is
    below 43/5, and a tick 8.6 seconds after a heartbeat sends the next. *)
Lemma tolerance_is_rounded :
  PrimFloat.mul ACTOR_TIMEOUT_TOLERANCE 43 = 0x1.1333333333333p+3%float
  /\ PrimFloat.ltb (PrimFloat.sub 0x1.3333333333333p+3 1)
       (PrimFloat.mul ACTOR_TIMEOUT_TOLERANCE 43) = false.
Proof. split; reflexivity. Qed.

Lemma due_or_not (now : float) (s : actor) : due now s \/ not_due now s.
Proof.
  unfold due, not_due. destruct (last_notified s) as [last|]; [|auto].
  destruct (PrimFloat.ltb (PrimFloat.sub now last) (tolerance s)) eqn:E; eauto.
Qed.

Lemma heartbeat_nt_due (now : float) (s : actor) :
  due now s -> heartbeat_nt now s = Some now.
Proof.
  unfold heartbeat_nt. intros [->|(last & -> & Hle)]; [reflexivity|].
  rewrite Hle. reflexivity.
Qed.

Lemma heartbeat_nt_not_due (now : float) (s : actor) :
  not_due now s -> heartbeat_nt now s = None.
Proof.
  unfold heartbeat_nt. intros (last & -> & Hlt). rewrite Hlt. reflexivity.
Qed.

Lemma heartbeat_sends (now : float) (s : actor) :
  is_Some (arbiter s) -> is_monitor s = false ->
  PrimFloat.eqb now 0 = false ->
  due now s ->
  heartbeat now s
  = emit (EvSend (Some RefArbiter) "notify" [VNum now])
      (set_last_notified (Some now) s).
Proof.
  intros Harb Hmon Hnow Hdue. unfold heartbeat.
  rewrite bool_decide_eq_true_2 by exact Harb. rewrite Hmon. simpl.
  rewrite (heartbeat_nt_due now s Hdue).
  apply num_truthy_nonzero in Hnow. rewrite Hnow. reflexivity.
Qed.

Lemma heartbeat_skips (now : float) (s : actor) :
  PrimFloat.eqb now 0 = true \/ not_due now s -> heartbeat now s = s.
Proof.
  intros [Hz|Hnot]; unfold heartbeat.
  - destruct (_ && _); [|reflexivity].
    destruct (heartbeat_nt now s) as [nt|] eqn:E; [|reflexivity].
    assert (nt = now) as ->.
    { unfold heartbeat_nt in E. destruct (last_notified s);
        [destruct (PrimFloat.ltb _ _); [discriminate|]|]; congruence. }
    unfold num_truthy. rewrite Hz. reflexivity.
  - rewrite (heartbeat_nt_not_due now s Hnot).
    destruct (_ && _); reflexivity.
Qed.

(** What the heartbeat block adds to the trace. *)
Lemma heartbeat_summary (now : float) (s : actor) :
  exists d,
    trace (heartbeat now s) = trace s ++ d
    /\ count is_on_task d = 0%nat
    /\ (is_Some (arbiter s) -> is_monitor s = false ->
        PrimFloat.eqb now 0 = false -> due now s ->
        count is_notify d = 1%nat
        /\ In (EvSend (Some RefArbiter) "notify" [VNum now]) d
        /\ last_notified (heartbeat now s) = Some now)
    /\ (PrimFloat.eqb now 0 = true \/ not_due now s ->
        count is_notify d = 0%nat
        /\ last_notified (heartbeat now s) = last_notified s).
Proof.
  destruct (PrimFloat.eqb now 0) eqn:Hz;
    [|destruct (due_or_not now s) as [Hdue|Hnot]].
  - exists []. rewrite app_nil_r, (heartbeat_skips now s) by (left; exact Hz).
    do 2 (split; [reflexivity|]). split; [discriminate|auto].
  - assert (not_due now s -> False) as Hcontra.
    { intros Hnot. apply heartbeat_nt_not_due in Hnot.
      rewrite (heartbeat_nt_due now s Hdue) in Hnot. discriminate. }
    destruct (decide (is_Some (arbiter s))) as [Harb|Harb];
      [destruct (is_monitor s) eqn:Hmon|].
    + exists []. rewrite app_nil_r. unfold heartbeat.
      rewrite Hmon, andb_false_r.
      do 2 (split; [reflexivity|]). split; [discriminate|].
      intros [?|?]; [discriminate|tauto].
    + exists [EvSend (Some RefArbiter) "notify" [VNum now]].
      rewrite (heartbeat_sends now s Harb Hmon Hz Hdue). simpl.
      do 2 (split; [reflexivity|]). split; [auto|].
      intros [?|?]; [discriminate|tauto].
    + exists []. rewrite app_nil_r. unfold heartbeat.
      rewrite bool_decide_eq_false_2 by exact Harb. simpl.
      do 2 (split; [reflexivity|]). split; [tauto|auto].
  - exists []. rewrite app_nil_r, (heartbeat_skips now s) by (right; exact Hnot).
    do 2 (split; [reflexivity|]). split; [|auto].
    intros _ _ _ Hdue. exfalso. apply heartbeat_nt_not_due in Hnot.
    rewrite (heartbeat_nt_due now s Hdue) in Hnot. discriminate.
Qed.

(** One call of the periodic task: what the flush, the heartbeat and the
    [on_task] hook add to the trace. *)
Lemma tick_summary (now : float) (s : actor) :
  let s' := __call__ now s in
  exists d,
    trace s' = trace s ++ d
    /\ _stopping s' = _stopping (flush false s)
    /\ (_stopping s = true -> _stopping s' = true)
    /\ count is_on_task d = (if _stopping s' then 0%nat else 1%nat)
    /\ (is_Some (arbiter s) -> is_monitor s = false ->
        PrimFloat.eqb now 0 = false -> due now s ->
        count is_notify d = 1%nat
        /\ In (EvSend (Some RefArbiter) "notify" [VNum now]) d
        /\ last_notified s' = Some now)
    /\ (PrimFloat.eqb now 0 = true \/ not_due now s ->
        count is_notify d = 0%nat /\ last_notified s' = last_notified s).
Proof.
  cbv zeta. unfold __call__.
  pose proof (evolves_flush false s) as Hev.
  set (s1 := flush false s) in *.
  destruct (ev_trace _ _ _ Hev) as (d1 & Hd1 & Hall).
  pose proof (count_none _ _ _ flush_event_not_notify Hall) as Hn1.
  pose proof (count_none _ _ _ flush_event_not_on_task Hall) as Ht1.
  destruct (heartbeat_frame now s1) as (_ & Hst & _).
  destruct (heartbeat_summary now s1) as (d2 & Hd2 & Ht2 & Hsend & Hskip).
  assert (due now s -> due now s1) as Hdue.
  { unfold due, tolerance. rewrite (ev_last _ _ _ Hev), (ev_timeout _ _ _ Hev).
    auto. }
  assert (not_due now s -> not_due now s1) as Hnot.
  { unfold not_due, tolerance.
    rewrite (ev_last _ _ _ Hev), (ev_timeout _ _ _ Hev). auto. }
  assert (is_Some (arbiter s) -> is_Some (arbiter s1)) as Harb.
  { pose proof (ev_arbiter _ _ _ Hev) as H. intros [p Hp]. rewrite Hp in H.
    destruct (arbiter s1); [eauto|discriminate]. }
  assert (is_monitor s1 = is_monitor s) as Hmon.
  { unfold is_monitor. rewrite (ev_impl _ _ _ Hev). reflexivity. }
  pose proof (ev_stopping_up _ _ _ Hev) as Hup.
  pose proof (ev_last _ _ _ Hev) as Hlast.
  set (s2 := heartbeat now s1) in *.
  set (task := if _stopping s1 then [] else [EvHook OnTask]).
  set (s3 := if negb (_stopping s2) then emit (EvHook OnTask) s2 else s2).
  assert (trace s3 = trace s ++ d1 ++ d2 ++ task
          /\ _stopping s3 = _stopping s1
          /\ last_notified s3 = last_notified s2) as (Htr & Hst3 & Hl3).
  { subst s3 task. rewrite Hst.
    destruct (_stopping s1); simpl; rewrite Hd2, Hd1, <- ?app_assoc;
      rewrite ?app_nil_r; auto. }
  assert (count is_on_task task = (if _stopping s1 then 0 else 1)%nat
          /\ count is_notify task = 0%nat) as [Ht3 Hn3].
  { subst task. destruct (_stopping s1); auto. }
  exists (d1 ++ d2 ++ task).
  rewrite !count_app, Ht1, Ht2, Hn1, Ht3, Hn3, Hst3, Hl3, Nat.add_0_r.
  split; [exact Htr|]. split; [reflexivity|]. split; [exact Hup|].
  split; [reflexivity|]. split.
  - intros Ha Hm Hz Hd. rewrite <- Hmon in Hm.
    destruct (Hsend (Harb Ha) Hm Hz (Hdue Hd)) as (H1 & H2 & H3).
    split; [exact H1|]. split; [|exact H3].
    apply in_or_app. right. apply in_or_app. left. exact H2.
  - intros Hn.
    assert (PrimFloat.eqb now 0 = true \/ not_due now s1) as Hn'
      by (destruct Hn; auto).
    destruct (Hskip Hn') as (H1 & H2).
    split; [exact H1|]. congruence.
Qed.




(** C6, as stated, fails: a tick of the stopping worker sends the heartbeat
    and moves [last_notified]. *)
Lemma C6_counterexample :
  ~ (forall (now : float) (s : actor),
       _stopping s = true ->
       count is_notify (trace (__call__ now s)) = count is_notify (trace s)
       /\ last_notified (__call__ now s) = last_notified s).
Proof.
  intros H. destruct (H 100%float stopping_worker eq_refl) as [_ H2].
  vm_compute in H2. discriminate H2.
Qed.

(** The same on a whole run: [stop] is called, the loop ticks once more and
    the tick notifies the arbiter without calling [on_task]. *)
Lemma stopping_tick_still_notifies :
  trace (fst (start [LStop; LTick 100] LoopReturns worker))
  = [EvAddLoopTask; EvHook OnStart; EvLogInfo LogBooting; EvIOLoopStart;
     EvHook OnStop; EvIOLoopStop;
     EvSend (Some RefArbiter) "notify" [VNum 100];
     EvLogInfo LogExiting;
     EvHook OnExit; EvRemoveLoopTask;
     EvSend (Some RefArbiter) "on_actor_exit" []; EvInboxClose].
Proof. reflexivity. Qed.

(** A monitor that is stopped closes without telling the arbiter, and sends
    no heartbeat. *)
Lemma monitor_run_trace :
  trace (fst (start [LTick 100; LStop] LoopReturns pool_monitor))
  = [EvAddLoopTask; EvHook OnStart; EvLogInfo LogBooting; EvIOLoopStart;
     EvHook OnTask; EvHook OnStop; EvIOLoopStop; EvLogInfo LogExiting;
     EvHook OnExit; EvRemoveLoopTask; EvInboxClose].
Proof. reflexivity. Qed.

(** C6, amended.  On a tick taken while the stopping flag is up, [on_task]
    is not called and the flag stays up; the heartbeat block does not look
    at the flag: on an actor with an arbiter that is not a monitor, when
    [now] is not 0.0 and nothing was notified before or the test
    [now - last_notified < tole] fails, it sends [notify(now)] and sets
    [last_notified]; when [now] is 0.0 or the test holds it does neither. *)
Theorem C6_on_task_gated_heartbeat_not (now : float) (s : actor) :
  _stopping s = true ->
  let s' := __call__ now s in
  exists d,
    trace s' = trace s ++ d
    /\ count is_on_task d = 0%nat
    /\ _stopping s' = true
    /\ (is_Some (arbiter s) -> is_monitor s = false ->
        PrimFloat.eqb now 0 = false -> due now s ->
        count is_notify d = 1%nat
        /\ In (EvSend (Some RefArbiter) "notify" [VNum now]) d
        /\ last_notified s' = Some now)
    /\ (PrimFloat.eqb now 0 = true \/ not_due now s ->
        count is_notify d = 0%nat /\ last_notified s' = last_notified s).
Proof.
  intros Hst s'.
  destruct (tick_summary now s) as (d & Htr & _ & Hup & Htask & Hsend & Hskip).
  exists d. fold s' in Htr, Hup, Htask, Hsend, Hskip.
  rewrite (Hup Hst) in Htask. auto using Hup.
Qed.

Lemma C6_on_task_gated_heartbeat_not_witness :
  _stopping stopping_worker = true
  /\ exists d,
       trace (__call__ 100 stopping_worker) = trace stopping_worker ++ d
       /\ count is_on_task d = 0%nat
       /\ count is_notify d = 1%nat.
Proof.
  split; [reflexivity|].
  destruct (C6_on_task_gated_heartbeat_not 100 stopping_worker eq_refl)
    as (d & Htr & Htask & _ & Hsend & _).
  exists d. split; [exact Htr|]. split; [exact Htask|].
  apply Hsend.
  - eexists. reflexivity.
  - reflexivity.
  - reflexivity.
  - left. reflexivity.
Defined.

(** On a tick of an actor that is not stopping once the inbox is flushed,
    [on_task] is called once. *)
Lemma tick_calls_on_task (now : float) (s : actor) :
  _stopping (flush false s) = false ->
  exists d, trace (__call__ now s) = trace s ++ d
            /\ count is_on_task d = 1%nat.
Proof.
  intros Hst.
  destruct (tick_summary now s) as (d & Htr & Hfl & _ & Htask & _).
  exists d. split; [exact Htr|]. rewrite Htask, Hfl, Hst. reflexivity.
Qed.

(** ** Exactly one finalization *)





(** A loop that fails before anyone called [stop]: the exception is logged,
    [_stop] finds the flag down and the actor is left running, its inbox
    open. *)
Lemma loop_failure_without_stop :
  let s := fst (start [LTick 100] (LoopRaises (OtherException "boom")) worker) in
  _state s = RUN
  /\ trace s
     = [EvAddLoopTask; EvHook OnStart; EvLogInfo LogBooting; EvIOLoopStart;
        EvSend (Some RefArbiter) "notify" [VNum 100]; EvHook OnTask;
        EvLogException (LogWorkerException (OtherException "boom"));
        EvLogInfo LogExiting].
Proof. split; reflexivity. Qed.



(** * Further properties of the code *)

(** ** The metaclass, in general *)

Lemma merge_bases_union (bases : list (option (gmap string bool)))
    (cont : gmap string bool) :
  foldl (fun c base =>
           match base with
           | Some rbase => c ∪ rbase
           | None => c
           end) cont bases
  = cont ∪ foldl (fun c base =>
                    match base with
                    | Some rbase => c ∪ rbase
                    | None => c
                    end) ∅ bases.
Proof.
  revert cont. induction bases as [|[rbase|] bases IH]; intros cont; simpl.
  - rewrite (right_id_L ∅ (∪)). reflexivity.
  - rewrite (IH (cont ∪ rbase)), (IH (∅ ∪ rbase)), (left_id_L ∅ (∪)).
    rewrite (assoc_L (∪)). reflexivity.
  - apply IH.
Qed.

Lemma metaclass_step (bases : list (option (gmap string bool)))
    (attrs : list (string * class_attr)) (own : gmap string bool) :
  foldl (fun cont km =>
           let cont1 :=
             match snd km with
             | CMethod ack =>
                 if String.prefix fprefix (fst km)
                 then <[strip_prefix (fst km) := default true ack]> cont
                 else cont
             | CData => cont
             end in
           foldl (fun c base =>
                    match base with
                    | Some rbase => c ∪ rbase
                    | None => c
                    end) cont1 (rev bases))
    (own ∪ inherited_functions bases) attrs
  = foldl (fun c km =>
             match own_entry km with
             | Some kv => <[fst kv := snd kv]> c
             | None => c
             end) own attrs
    ∪ inherited_functions bases.
Proof.
  revert own. induction attrs as [|km attrs IH]; intros own; simpl;
    [reflexivity|].
  rewrite merge_bases_union. fold (inherited_functions bases).
  unfold own_entry.
  destruct (snd km) as [ack|];
    [destruct (String.prefix fprefix (fst km))|]; simpl;
    rewrite ?insert_union_l, <- (assoc_L (∪)),
      (idemp_L (∪) (inherited_functions bases));
    apply IH.
Qed.

Lemma metaclass_union (bases : list (option (gmap string bool)))
    (km : string * class_attr) (attrs : list (string * class_attr)) :
  ActorMetaClass_new bases (km :: attrs)
  = own_functions (km :: attrs) ∪ inherited_functions bases.
Proof.
  unfold ActorMetaClass_new, own_functions. simpl.
  rewrite merge_bases_union. fold (inherited_functions bases).
  unfold own_entry at 2.
  destruct (snd km) as [ack|];
    [destruct (String.prefix fprefix (fst km))|]; simpl;
    apply metaclass_step.
Qed.

Lemma ActorMetaClass_new_lookup
    (bases : list (option (gmap string bool)))
    (attrs : list (string * class_attr)) (k : string) :
  ActorMetaClass_new bases attrs !! k
  = match attrs with
    | [] => None
    | _ :: _ =>
        match own_functions attrs !! k with
        | Some v => Some v
        | None => inherited_functions bases !! k
        end
    end.
Proof.
  destruct attrs as [|km attrs]; [reflexivity|].
  rewrite metaclass_union, lookup_union.
  destruct (own_functions (km :: attrs) !! k),
    (inherited_functions bases !! k); reflexivity.
Qed.

(** X1.  For a class whose body is not empty, the table holds the functions
    of the body, and the entries of the bases for the names the body does not
    define: the nesting of the two loops of [__new__] changes nothing to
    that.  For an empty body the loop over the bases never runs and the table
    is empty, whatever the bases hold. *)
Theorem metaclass_own_then_inherited
    (bases : list (option (gmap string bool)))
    (attrs : list (string * class_attr)) (k : string) :
  ActorMetaClass_new bases attrs !! k
  = match attrs with
    | [] => None
    | _ :: _ =>
        match own_functions attrs !! k with
        | Some v => Some v
        | None => inherited_functions bases !! k
        end
    end.
Proof. apply ActorMetaClass_new_lookup. Qed.

Lemma inherited_snoc (bases : list (option (gmap string bool)))
    (b : gmap string bool) :
  inherited_functions (bases ++ [Some b]) = b ∪ inherited_functions bases.
Proof.
  unfold inherited_functions. rewrite rev_app_distr. simpl.
  rewrite merge_bases_union, (left_id_L ∅ (∪)). reflexivity.
Qed.

(** X2.  Among the bases the last one listed wins: the loop runs over
    [bases[::-1]] and keeps the first entry it meets, so a name that the body
    does not define takes the flag of the last base that has it. *)
Theorem metaclass_last_base_wins
    (bases : list (option (gmap string bool))) (b : gmap string bool)
    (attrs : list (string * class_attr)) (k : string) :
  attrs <> [] -> own_functions attrs !! k = None ->
  ActorMetaClass_new (bases ++ [Some b]) attrs !! k
  = match b !! k with
    | Some v => Some v
    | None => ActorMetaClass_new bases attrs !! k
    end.
Proof.
  intros Hne Hown. rewrite !ActorMetaClass_new_lookup.
  destruct attrs as [|km attrs]; [contradiction|]. rewrite Hown.
  rewrite inherited_snoc, lookup_union.
  destruct (b !! k), (inherited_functions bases !! k); reflexivity.
Qed.

Lemma metaclass_last_base_wins_witness :
  ActorMetaClass_new [Some {["ping" := true]}; Some {["ping" := false]}]
    [("__module__", CData)] !! "ping" = Some false.
Proof.
  exact (metaclass_last_base_wins [Some {["ping" := true]}]
           {["ping" := false]} [("__module__", CData)] "ping"
           ltac:(discriminate) eq_refl).
Defined.

Lemma prefix_split (p s : string) :
  String.prefix p s = true ->
  s = p +:+ String.substring (String.length p)
              (String.length s - String.length p) s.
Proof.
  revert s. induction p as [|c p IH]; intros s; simpl.
  - intros _. rewrite Nat.sub_0_r, substring_all. reflexivity.
  - destruct s as [|c' s]; [discriminate|]. simpl.
    destruct (Ascii.ascii_dec c c') as [->|]; [|discriminate].
    intros H.
    change (String c' p +:+ ?x) with (String c' (p +:+ x)).
    f_equal. apply (IH s H).
Qed.

Lemma own_entry_key (km : string * class_attr) (kv : string * bool) :
  own_entry km = Some kv -> fst km = fprefix +:+ fst kv.
Proof.
  unfold own_entry. destruct (snd km); [|discriminate].
  destruct (String.prefix fprefix (fst km)) eqn:H; [|discriminate].
  intros [= <-]. simpl. apply (prefix_split _ _ H).
Qed.

Lemma own_entries_NoDup (attrs : list (string * class_attr)) :
  NoDup (fst <$> attrs) -> NoDup (fst <$> omap own_entry attrs).
Proof.
  induction attrs as [|km attrs IH]; simpl; [constructor|].
  intros [Hnotin Hnd]%NoDup_cons. specialize (IH Hnd).
  destruct (own_entry km) as [kv|] eqn:E; [|exact IH].
  simpl. apply NoDup_cons. split; [|exact IH].
  intros Hin. apply Hnotin.
  apply list_elem_of_fmap in Hin as (kv' & Hk & Hin).
  apply list_elem_of_omap in Hin as (km' & Hin & E').
  apply list_elem_of_fmap. exists km'. split; [|exact Hin].
  rewrite (own_entry_key _ _ E), (own_entry_key _ _ E'), Hk. reflexivity.
Qed.

Lemma own_functions_fold (attrs : list (string * class_attr)) :
  own_functions attrs
  = foldl (fun c kv => <[fst kv := snd kv]> c) ∅ (omap own_entry attrs).
Proof.
  unfold own_functions. generalize (∅ : gmap string bool).
  induction attrs as [|km attrs IH]; intros c; simpl; [reflexivity|].
  destruct (own_entry km); simpl; apply IH.
Qed.

Lemma fold_insert_lookup (l : list (string * bool)) (k : string) (v : bool) :
  NoDup (fst <$> l) ->
  foldl (fun c kv => <[fst kv := snd kv]> c) (∅ : gmap string bool) l !! k
  = Some v <-> (k, v) ∈ l.
Proof.
  induction l as [|[k' v'] l IH] using rev_ind; simpl.
  - intros _. rewrite lookup_empty. split; [discriminate|].
    intros H. inversion H.
  - rewrite fmap_app, foldl_app. simpl.
    intros [Hnd [Hdisj _]]%NoDup_app. specialize (IH Hnd).
    rewrite elem_of_app, list_elem_of_singleton.
    destruct (decide (k = k')) as [->|Hne].
    + rewrite lookup_insert_eq. split.
      * intros [= ->]. right. reflexivity.
      * intros [Hin|[= ->]]; [|reflexivity].
        exfalso. apply (Hdisj k'); [|left].
        apply list_elem_of_fmap. exists (k', v). auto.
    + rewrite lookup_insert_ne by congruence. rewrite IH.
      split; [auto|]. intros [H|[= -> ->]]; [exact H|contradiction].
Qed.

(** X3.  The table does not depend on the order in which the dictionary of
    the class body is walked. *)
Theorem metaclass_order_irrelevant
    (bases : list (option (gmap string bool)))
    (attrs attrs' : list (string * class_attr)) :
  NoDup (fst <$> attrs) -> attrs ≡ₚ attrs' ->
  ActorMetaClass_new bases attrs = ActorMetaClass_new bases attrs'.
Proof.
  intros Hnd Hperm.
  assert (NoDup (fst <$> attrs')) as Hnd' by (rewrite <- Hperm; exact Hnd).
  apply map_eq. intros k. rewrite !ActorMetaClass_new_lookup.
  destruct attrs as [|km attrs], attrs' as [|km' attrs'];
    [reflexivity
    |apply Permutation_nil_l in Hperm; discriminate
    |apply Permutation_nil_r in Hperm; discriminate|].
  assert (own_functions (km :: attrs) !! k = own_functions (km' :: attrs') !! k)
    as ->; [|reflexivity].
  apply option_eq. intros v. rewrite !own_functions_fold.
  rewrite !fold_insert_lookup by (apply own_entries_NoDup; assumption).
  rewrite Hperm. reflexivity.
Qed.

Lemma metaclass_order_irrelevant_witness :
  ActorMetaClass_new [Some actor_functions] Echo_attrs
  = ActorMetaClass_new [Some actor_functions] (rev Echo_attrs).
Proof.
  apply metaclass_order_irrelevant.
  - apply (bool_decide_unpack _). vm_compute. reflexivity.
  - apply Permutation_rev.
Defined.

(** The table of the subclass: the two functions of its body, [ping] with
    its new flag, and the rest of the table of [Actor]. *)
Lemma Echo_functions :
  map_to_list (ActorMetaClass_new [Some actor_functions] Echo_attrs)
  ≡ₚ [("callback", false); ("stop", false); ("notify", false);
      ("on_actor_exit", false); ("info", true); ("ping", false);
      ("echo", true)].
Proof. vm_compute. solve_Permutation. Qed.

(** ** Invariants over any history of calls *)

(** A property of the actor that the elementary steps of the code keep is
    kept by every method, hence over any history of calls. *)
Section History.

Variable I : actor -> Prop.

Hypothesis I_emit :
  forall e s, passive_event e = true -> I s -> I (emit e s).
Hypothesis I_inbox : forall v s, I s -> I (set_inbox v s).
Hypothesis I_linked :
  forall v s,
    dom v ⊆ dom (_linked_actors s) -> I s -> I (set_linked_actors v s).
Hypothesis I_arbiter :
  forall t s, I s -> I (set_arbiter (set_sup_notified t <$> arbiter s) s).
Hypothesis I_monitor :
  forall t s, I s -> I (set_monitor (set_sup_notified t <$> monitor s) s).
Hypothesis I_stop : forall s, I s -> I (stop s).
Hypothesis I_heartbeat : forall now s, I s -> I (heartbeat now s).
Hypothesis I__stop : forall s, I s -> I (_stop s).
Hypothesis I_booted : forall s, _state s = INITIAL -> I s -> I (booted s).

Lemma history_call_builtin (h : builtin) (caller : option actor_ref)
    (vals : list pyval) (s : actor) :
  I s -> I (fst (call_builtin h caller vals s)).
Proof.
  intros HI. destruct h; simpl;
    repeat (destruct vals as [|? vals]; simpl; auto).
  - destruct caller as [[]|]; simpl; auto.
    apply I_linked; [|exact HI]. rewrite dom_alter. reflexivity.
  - destruct (caller ≫= ref_aid s) as [a|]; simpl; auto.
    destruct (_linked_actors s !! a); simpl; auto.
    apply I_linked; [|exact HI]. rewrite dom_delete.
    apply subseteq_difference_l. reflexivity.
Qed.

Lemma history_handle_request (caller : option actor_ref) (r : request)
    (s : actor) :
  I s -> I (fst (handle_request_from_actor caller r s)).
Proof.
  intros HI. unfold handle_request_from_actor.
  destruct (attr_truthy _); [|exact HI].
  destruct (getattr_actor_ s (req_name r)) as [h| |]; try exact HI.
  destruct (bind _ _ _) as [vals|]; [|exact HI].
  pose proof (history_call_builtin h caller vals s HI) as H.
  destruct (call_builtin h caller vals s) as [s1 [e|v]]; simpl in *;
    [exact H|].
  destruct (default true (ack_attr h)); simpl; [|exact H].
  apply I_emit; [reflexivity|exact H].
Qed.

Lemma history_process (closing : bool) (r : request) (s : actor) :
  I s -> I (fst (process closing r s)).
Proof.
  intros HI. unfold process. destruct (_ && _).
  - simpl. apply I_emit; [reflexivity|exact HI].
  - apply history_handle_request, HI.
Qed.

Lemma history_flush (closing : bool) (s : actor) :
  I s -> I (flush closing s).
Proof.
  unfold flush. generalize (_inbox s). intros pending. revert s.
  induction pending as [|[r|] rest IH]; intros s HI; simpl; auto.
  pose proof (history_process closing r _ (I_inbox rest s HI)) as H.
  destruct (process closing r (set_inbox rest s)) as [s1 [e|]]; simpl in H.
  - apply IH, I_emit; [reflexivity|exact H].
  - destruct closing; [apply IH|]; exact H.
Qed.

Lemma history_call (now : float) (s : actor) : I s -> I (__call__ now s).
Proof.
  intros HI. unfold __call__.
  pose proof (I_heartbeat now _ (history_flush false s HI)) as H.
  destruct (negb _); [|exact H]. apply I_emit; [reflexivity|exact H].
Qed.

Lemma history_run_op (o : loop_op) (s : actor) : I s -> I (run_op o s).
Proof.
  intros HI. destruct o; simpl; auto using history_call, history_flush.
  unfold shut_down. destruct (arbiter s); [|exact HI].
    apply I_emit; [reflexivity|exact HI].
Qed.

Lemma history_run_ops (ops : list loop_op) (s : actor) :
  I s -> I (run_ops ops s).
Proof.
  revert s. induction ops as [|o ops IH]; intros s HI; simpl; [exact HI|].
  apply IH, history_run_op, HI.
Qed.

Lemma history__run (script : list loop_op) (o : loop_outcome) (s : actor) :
  I s -> I (fst (_run script o s)).
Proof.
  intros HI. unfold _run.
  assert (I (run_ops script (emit EvIOLoopStart s))) as H.
  { apply history_run_ops, I_emit; [reflexivity|exact HI]. }
  destruct o as [|e]; [|destruct (is_Exception e)]; simpl;
    repeat first [apply I__stop | apply I_emit; [reflexivity|]]; exact H.
Qed.

Lemma history_start (script : list loop_op) (o : loop_outcome) (s : actor) :
  I s -> I (fst (start script o s)).
Proof.
  intros HI. unfold start.
  destruct (Z.eqb_spec (_state s) INITIAL) as [H0|H0]; [|exact HI].
  pose proof (history__run script o _ (I_booted s H0 HI)) as H.
  unfold booted in H. destruct (_run script o _) as [s5 [e|]]; exact H.
Qed.

Lemma history_run_calls (cs : list api_call) (s : actor) :
  I s -> I (run_calls cs s).
Proof.
  revert s. induction cs as [|c cs IH]; intros s HI; simpl; [exact HI|].
  apply IH. destruct c; simpl; [apply history_start|apply history_run_op];
    exact HI.
Qed.

End History.

Lemma passive_plain (e : event) : passive_event e = true -> plain_event e = true.
Proof.
  destruct e as [| | |h|m|m|m| | |t n a|r v|]; try discriminate; try reflexivity.
  - destruct h; try discriminate; reflexivity.
  - simpl. unfold plain_event. simpl.
    intros [->%String.eqb_eq| ->%String.eqb_eq]%orb_true_iff; reflexivity.
Qed.

Lemma passive_not_stop (e : event) :
  passive_event e = true -> is_on_stop e = false /\ is_loop_stop e = false.
Proof.
  destruct e as [| | |h|m|m|m| | |t n a|r v|]; try discriminate; auto.
  destruct h; try discriminate; auto.
Qed.

Lemma passive_not_notify (e : event) :
  passive_event e = true -> is_notify e = false /\ notify_time e = None.
Proof.
  destruct e as [| | |h|m|m|m| | |t n a|r v|]; try discriminate; auto.
  simpl. intros [->%String.eqb_eq| ->%String.eqb_eq]%orb_true_iff;
    split; try reflexivity; destruct a as [|[] [|? ?]]; reflexivity.
Qed.

Lemma count_snoc (p : event -> bool) (l : list event) (e : event) :
  count p (l ++ [e]) = (count p l + if p e then 1 else 0)%nat.
Proof. rewrite count_app. simpl. destruct (p e); reflexivity. Qed.

(** *** What the constructor fixes *)

Lemma same_config_history (cs : list api_call) (s0 : actor) :
  same_config s0 (run_calls cs s0).
Proof.
  apply (history_run_calls (same_config s0)); unfold same_config; simpl;
    try tauto.
  - intros t s H. destruct (arbiter s); simpl in *; tauto.
  - intros t s H. destruct (monitor s); simpl in *; tauto.
  - intros s. unfold stop. destruct (_ && _); [|auto]. simpl.
    destruct (on_stop_result s) eqn:E; simpl; rewrite ?E; auto.
  - intros now s H. unfold heartbeat. destruct (_ && _); [|exact H].
    destruct (heartbeat_nt now s) as [nt|]; [|exact H].
    destruct (num_truthy nt); exact H.
  - intros s H. unfold _stop. destruct (_stopping s); [|exact H]. simpl.
    destruct (negb _); exact H.
  - intros s _ H. unfold booted. destruct (isprocess s); exact H.
Qed.

(** X4.  Over any history of calls the actor keeps the implementation, aid,
    timeout, environment, links, [on_stop] hook and supervisors it was
    built with; only what a supervisor was notified of may change. *)
Theorem config_never_changes (cs : list api_call) (s0 : actor) :
  same_config s0 (run_calls cs s0).
Proof. apply same_config_history. Qed.

(** *** [on_stop] and the request to the loop *)

Lemma stop_counted_history (cs : list api_call) (s : actor) :
  lifecycle_inv s /\ stop_counted s ->
  lifecycle_inv (run_calls cs s) /\ stop_counted (run_calls cs s).
Proof.
  apply (history_run_calls (fun s0 => lifecycle_inv s0 /\ stop_counted s0));
    clear cs s.
  - intros e s He [Hinv [H1 H2]].
    split; [apply inv_emit_plain, Hinv; apply passive_plain, He|].
    destruct (passive_not_stop e He) as [E1 E2].
    unfold stop_counted. simpl. rewrite !count_snoc, E1, E2, !Nat.add_0_r. auto.
  - intros v s [Hinv HC]. split; [|exact HC].
    apply (inv_evolves plain_event _ _ (fun _ H => H) (evolves_set_inbox _ v s) Hinv).
  - intros v s _ [Hinv HC]. split; [|exact HC].
    apply (inv_evolves plain_event _ _ (fun _ H => H) (evolves_set_linked _ v s) Hinv).
  - intros t s [Hinv HC]. split; [|exact HC].
    apply (inv_evolves plain_event _ _ (fun _ H => H)
             (evolves_notified_arbiter _ t s) Hinv).
  - intros t s [Hinv HC]. split; [|exact HC].
    apply (inv_evolves plain_event _ _ (fun _ H => H)
             (evolves_notified_monitor _ t s) Hinv).
  - intros s [Hinv [H1 H2]]. split; [apply inv_stop, Hinv|].
    revert H1 H2. unfold stop_counted, stop, is_alive.
    destruct (Z.eqb_spec (_state s) RUN) as [Hrun|Hrun]; simpl; [|auto].
    destruct (_stopping s) eqn:Hst; simpl; [rewrite Hst; auto|].
    rewrite Hrun. simpl. intros H1 H2.
    destruct (on_stop_result s) eqn:Hres; simpl; rewrite ?Hres;
      rewrite ?count_app; simpl; rewrite ?count_app; simpl;
      rewrite ?H1, ?H2; auto.
  - intros now s [Hinv [H1 H2]]. split; [apply inv_heartbeat, Hinv|].
    revert H1 H2. unfold stop_counted, heartbeat.
    destruct (_ && _); [|auto].
    destruct (heartbeat_nt now s) as [nt|]; [|auto].
    destruct (num_truthy nt); [|auto].
    simpl. rewrite !count_snoc. simpl. rewrite !Nat.add_0_r. auto.
  - intros s [Hinv [H1 H2]]. split; [apply inv__stop, Hinv|].
    destruct (_stopping s) eqn:Hst;
      [|rewrite (_stop_idle s Hst); unfold stop_counted; rewrite Hst; auto].
    destruct (_stop_body s Hst) as (Ht & Hs & Hf).
    assert (on_stop_result (_stop s) = on_stop_result s) as Hres.
    { unfold _stop. rewrite Hst. simpl. destruct (negb _); reflexivity. }
    unfold stop_counted. rewrite Ht, Hs, Hf, Hres, !count_app, H1, H2.
    simpl. unfold finalize_events.
    destruct (is_monitor s), (on_stop_result s); simpl; auto.
  - intros s H0 [Hinv [H1 H2]]. split; [apply (inv_boot s Hinv H0)|].
    assert (_stopping s = false) as Hst.
    { destruct (_stopping s) eqn:E; [|reflexivity].
      rewrite (inv_stopping s Hinv E) in H0. discriminate. }
    revert H1 H2. unfold stop_counted, booted. rewrite H0, Hst. simpl.
    destruct (isprocess s); simpl; rewrite ?count_app; simpl;
      rewrite ?count_app; simpl; rewrite ?Nat.add_0_r, ?Hst; simpl; auto.
Qed.

(** X5.  However often [stop] or [terminate] is called, or a [stop]
    message handled, on an actor, the [on_stop] hook runs at most once and
    the loop is asked to stop at most once; both have happened exactly when
    the actor is stopping or closed, except that the loop is never asked
    when [on_stop] answers that it did the work. *)
Theorem stop_happens_once (impl : backend) (e : os_env)
    (arb mon : option supervisor) (links : option (list (string * string)))
    (d : bool) (cs : list api_call) :
  let s := run_calls cs (__init__ impl e arb mon links d) in
  (count is_on_stop (trace s) <= 1)%nat
  /\ (count is_loop_stop (trace s) <= count is_on_stop (trace s))%nat
  /\ (count is_on_stop (trace s) = 1%nat
      <-> _stopping s = true \/ _state s = CLOSE)
  /\ (d = true -> count is_loop_stop (trace s) = 0%nat)
  /\ (d = false -> count is_loop_stop (trace s) = count is_on_stop (trace s)).
Proof.
  intros s.
  destruct (stop_counted_history cs (__init__ impl e arb mon links d))
    as [Hinv [H1 H2]].
  { split; [apply inv_init|]. split; simpl; [reflexivity|].
    destruct d; reflexivity. }
  fold s in Hinv, H1, H2.
  assert (on_stop_result s = d) as Hd.
  { apply (same_config_history cs (__init__ impl e arb mon links d)). }
  rewrite H1, H2, Hd.
  assert ((_stopping s || (_state s =? CLOSE)%Z) = true
          <-> _stopping s = true \/ _state s = CLOSE) as Hor.
  { rewrite orb_true_iff, Z.eqb_eq. reflexivity. }
  destruct (_stopping s || (_state s =? CLOSE)%Z); destruct d;
    repeat split; try lia; try discriminate; try tauto;
    intros; try (apply Hor; assumption).
  all: try (exfalso; assert (false = true) as Habs by (apply Hor; assumption);
            discriminate).
Qed.

(** *** The heartbeats of a history *)

Lemma not_notify_time (e : event) : is_notify e = false -> notify_time e = None.
Proof.
  destruct e as [| | |h|m|m|m| | |t n a|r v|]; try reflexivity.
  simpl. intros ->. destruct a as [|[] [|? ?]]; reflexivity.
Qed.

Lemma quiet_times (d : list event) :
  forallb (fun e => negb (is_notify e)) d = true ->
  omap notify_time d = [] /\ count is_notify d = 0%nat.
Proof.
  induction d as [|e d IH]; simpl; [auto|].
  intros [He Hd]%andb_true_iff. apply negb_true_iff in He.
  rewrite He, (not_notify_time e He). auto.
Qed.

Lemma gapped_snoc (tole : float) (l : list float) (t : float) :
  gapped tole l ->
  match last l with
  | Some t0 => PrimFloat.ltb (PrimFloat.sub t t0) tole = false
  | None => True
  end ->
  gapped tole (l ++ [t]).
Proof.
  induction l as [|t1 [|t2 l] IH]; simpl; auto.
  intros [H12 Hrest] Hlast. split; [exact H12|]. apply IH; assumption.
Qed.

Lemma spaced_quiet (s s' : actor) :
  last_notified s' = last_notified s -> _timeout s' = _timeout s ->
  (exists d, trace s' = trace s ++ d
             /\ forallb (fun e => negb (is_notify e)) d = true) ->
  heartbeats_spaced s -> heartbeats_spaced s'.
Proof.
  intros Hl Ht (d & Hd & Hq) (H1 & H2 & H3).
  destruct (quiet_times d Hq) as [Hom Hc].
  unfold heartbeats_spaced, tolerance.
  rewrite Hl, Ht, Hd, omap_app, Hom, app_nil_r, count_app, Hc, Nat.add_0_r.
  auto.
Qed.

Lemma spaced_evolves (allowed : event -> bool) (s s' : actor) :
  (forall e, allowed e = true -> is_notify e = false) ->
  evolves allowed s s' -> heartbeats_spaced s -> heartbeats_spaced s'.
Proof.
  intros Hq Hev. apply spaced_quiet;
    [apply (ev_last _ _ _ Hev)|apply (ev_timeout _ _ _ Hev)|].
  destruct (ev_trace _ _ _ Hev) as (d & Hd & Hall). exists d.
  split; [exact Hd|]. apply (forallb_weaken allowed); [|exact Hall].
  intros e He. rewrite (Hq e He). reflexivity.
Qed.

Lemma builtin_event_not_notify (e : event) :
  builtin_event e = true -> is_notify e = false.
Proof. destruct e; try discriminate; reflexivity. Qed.

Lemma spaced_heartbeat (now : float) (s : actor) :
  heartbeats_spaced s -> heartbeats_spaced (heartbeat now s).
Proof.
  intros (H1 & H2 & H3). unfold heartbeat.
  destruct (_ && _); [|repeat split; assumption].
  unfold heartbeat_nt.
  destruct (last_notified s) as [t0|] eqn:Hlast.
  - destruct (PrimFloat.ltb (PrimFloat.sub now t0) (tolerance s)) eqn:Hlt;
      [unfold heartbeats_spaced; rewrite Hlast; auto|].
    destruct (num_truthy now);
      [|unfold heartbeats_spaced; rewrite Hlast; auto].
    unfold heartbeats_spaced, tolerance in *. simpl.
    rewrite omap_app, count_snoc. simpl. rewrite last_snoc, length_app.
    simpl. rewrite H3. split; [|split; [reflexivity|lia]].
    apply gapped_snoc; [exact H1|]. rewrite <- H2. exact Hlt.
  - destruct (num_truthy now);
      [|unfold heartbeats_spaced; rewrite Hlast; auto].
    unfold heartbeats_spaced, tolerance in *. simpl.
    rewrite omap_app, count_snoc. simpl. rewrite last_snoc, length_app.
    simpl. rewrite H3. split; [|split; [reflexivity|lia]].
    apply gapped_snoc; [exact H1|]. rewrite <- H2. exact I.
Qed.

Lemma spaced_same_trace (s s' : actor) :
  last_notified s' = last_notified s -> _timeout s' = _timeout s ->
  trace s' = trace s ->
  heartbeats_spaced s -> heartbeats_spaced s'.
Proof.
  intros Hl Ht Htr. apply spaced_quiet; auto.
  exists []. rewrite app_nil_r. auto.
Qed.

Lemma spaced_history (cs : list api_call) (s : actor) :
  heartbeats_spaced s -> heartbeats_spaced (run_calls cs s).
Proof.
  apply (history_run_calls heartbeats_spaced); clear cs s.
  - intros e s He. apply spaced_quiet; simpl; auto.
    exists [e]. simpl. destruct (passive_not_notify e He) as [-> _]. auto.
  - intros v s. apply spaced_same_trace; reflexivity.
  - intros v s _. apply spaced_same_trace; reflexivity.
  - intros t s. apply spaced_same_trace; reflexivity.
  - intros t s. apply spaced_same_trace; reflexivity.
  - intros s. apply (spaced_evolves builtin_event);
      [apply builtin_event_not_notify|apply evolves_stop_builtin].
  - apply spaced_heartbeat.
  - intros s. destruct (_stopping s) eqn:Hst;
      [|rewrite (_stop_idle s Hst); auto].
    destruct (_stop_body s Hst) as (Ht & _ & _).
    apply spaced_quiet.
    + unfold _stop. rewrite Hst. simpl. destruct (negb _); reflexivity.
    + unfold _stop. rewrite Hst. simpl. destruct (negb _); reflexivity.
    + exists (finalize_events s). split; [exact Ht|].
      unfold finalize_events. destruct (is_monitor s); reflexivity.
  - intros s _. apply spaced_quiet.
    + unfold booted. destruct (isprocess s); reflexivity.
    + unfold booted. destruct (isprocess s); reflexivity.
    + exists ((if isprocess s then [EvConfigureLogging] else [])
              ++ [EvHook OnStart; EvLogInfo LogBooting]).
      unfold booted. destruct (isprocess s); simpl;
        rewrite <- ?app_assoc; auto.
Qed.

(** X6.  Over any history of calls, with clock readings in any order,
    between two successive heartbeats of the trace the test
    [t2 - t1 < tole] of the code, on floats, fails: they are at least the
    rounded tolerance apart.  [last_notified] is the time of the last
    heartbeat sent (absent when none was), and every [notify] sent carries
    one time. *)
Theorem heartbeats_never_closer_than_tolerance (impl : backend) (e : os_env)
    (arb mon : option supervisor) (links : option (list (string * string)))
    (d : bool) (cs : list api_call) :
  let s := run_calls cs (__init__ impl e arb mon links d) in
  let times := omap notify_time (trace s) in
  gapped (tolerance s) times
  /\ tolerance s = tolerance (__init__ impl e arb mon links d)
  /\ last_notified s = last times
  /\ count is_notify (trace s) = length times.
Proof.
  intros s times.
  destruct (spaced_history cs (__init__ impl e arb mon links d))
    as (H1 & H2 & H3); [repeat split|].
  destruct (same_config_history cs (__init__ impl e arb mon links d))
    as (_ & _ & Ht & _).
  repeat split; try assumption. unfold tolerance. fold s in Ht.
  rewrite Ht. reflexivity.
Qed.

Lemma unsupervised_history (cs : list api_call) (s : actor) :
  unsupervised s -> unsupervised (run_calls cs s).
Proof.
  apply (history_run_calls unsupervised); clear cs s; unfold unsupervised.
  - intros e s He (Hc & Hn & Hl). simpl. rewrite count_snoc.
    destruct (passive_not_notify e He) as [-> _]. rewrite Nat.add_0_r. auto.
  - auto.
  - auto.
  - intros t s (Hc & Hn & Hl). simpl. repeat split; auto.
    destruct Hc as [-> | Hm]; auto.
  - auto.
  - intros s (Hc & Hn & Hl).
    pose proof (evolves_stop_builtin s) as Hev.
    destruct (ev_trace _ _ _ Hev) as (d & Hd & Hall).
    rewrite (ev_last _ _ _ Hev), Hd, count_app, Hn.
    rewrite (count_none _ _ _ builtin_event_not_notify Hall).
    repeat split; auto. destruct Hc as [Ha|Hm].
    + left. pose proof (ev_arbiter _ _ _ Hev) as H. rewrite Ha in H.
      destruct (arbiter (stop s)); [discriminate|reflexivity].
    + right. unfold is_monitor in *. rewrite (ev_impl _ _ _ Hev). exact Hm.
  - intros now s (Hc & Hn & Hl). unfold heartbeat.
    destruct Hc as [Ha|Hm].
    + rewrite Ha. simpl. rewrite Ha. auto.
    + rewrite Hm, andb_false_r. auto.
  - intros s (Hc & Hn & Hl). destruct (_stopping s) eqn:Hst;
      [|rewrite (_stop_idle s Hst); auto].
    destruct (_stop_body s Hst) as (Ht & _ & _). rewrite Ht, count_app, Hn.
    unfold is_monitor. rewrite _stop_impl. fold (is_monitor s).
    assert (arbiter (_stop s) = arbiter s /\ last_notified (_stop s) = last_notified s)
      as [-> ->].
    { unfold _stop. rewrite Hst. simpl. destruct (negb _); auto. }
    repeat split; auto. unfold finalize_events.
    destruct (is_monitor s); reflexivity.
  - intros s _ (Hc & Hn & Hl). unfold booted.
    destruct (isprocess s); simpl; rewrite ?count_app; simpl;
      rewrite ?count_app; simpl; rewrite ?Hn; auto.
Qed.

(** X7.  An actor built without an arbiter, or as a monitor, never sends a
    heartbeat, whatever is done with it, and its [last_notified] stays
    absent. *)
Theorem unsupervised_actor_never_notifies (impl : backend) (e : os_env)
    (arb mon : option supervisor) (links : option (list (string * string)))
    (d : bool) (cs : list api_call) :
  arb = None \/ b_impl impl = "monitor" ->
  let s := run_calls cs (__init__ impl e arb mon links d) in
  count is_notify (trace s) = 0%nat /\ last_notified s = None.
Proof.
  intros H s.
  apply (unsupervised_history cs (__init__ impl e arb mon links d)).
  unfold unsupervised, is_monitor. simpl. repeat split.
  destruct H as [-> | ->]; auto.
Qed.

Lemma unsupervised_actor_never_notifies_witness :
  count is_notify
    (trace (run_calls [CallStart [LTick 100; LTick 200; LStop] LoopReturns]
              pool_monitor)) = 0%nat.
Proof.
  apply (unsupervised_actor_never_notifies monitor_backend sample_env
           (Some the_arbiter) None None false
           [CallStart [LTick 100; LTick 200; LStop] LoopReturns]).
  right. reflexivity.
Defined.

(** ** The lifecycle predicates *)

(** X8.  On an actor built by the constructor, after any history of calls:
    [closed] and [stopped] agree, the state [TERMINATE] being never
    assigned; [is_alive] is [started] and not [stopped]; and an actor that is
    stopping is alive. *)
Theorem lifecycle_predicates_agree (impl : backend) (e : os_env)
    (arb mon : option supervisor) (links : option (list (string * string)))
    (d : bool) (cs : list api_call) :
  let s := run_calls cs (__init__ impl e arb mon links d) in
  closed s = stopped s
  /\ is_alive s = started s && negb (stopped s)
  /\ _state s <> TERMINATE
  /\ (_stopping s = true -> is_alive s = true).
Proof.
  intros s.
  pose proof (inv_run_calls cs _ (inv_init impl e arb mon links d)) as Hinv.
  fold s in Hinv. unfold closed, stopped, is_alive, started.
  split; [|split; [|split]].
  - destruct (inv_state s Hinv) as [H|[H|H]]; rewrite H; reflexivity.
  - destruct (inv_state s Hinv) as [H|[H|H]]; rewrite H; reflexivity.
  - destruct (inv_state s Hinv) as [H|[H|H]]; rewrite H; discriminate.
  - intros H. rewrite (inv_stopping s Hinv H). reflexivity.
Qed.

(** X9.  Once an actor is stopped, the calls of its lifecycle change nothing
    any more, in any number and order: [start], [stop], [terminate] and the
    [_stop] callback leave it as it is. *)
Theorem stopped_actor_is_inert (impl : backend) (e : os_env)
    (arb mon : option supervisor) (links : option (list (string * string)))
    (d : bool) (cs : list api_call) (after : list api_call) :
  let s := run_calls cs (__init__ impl e arb mon links d) in
  stopped s = true ->
  Forall (fun c => match c with
                   | CallStart _ _ | Call LStop | Call LStopped => True
                   | _ => False
                   end) after ->
  run_calls after s = s /\ terminate s = s.
Proof.
  intros s Hstopped Hafter.
  pose proof (inv_run_calls cs _ (inv_init impl e arb mon links d)) as Hinv.
  fold s in Hinv.
  assert (_state s = CLOSE) as Hc.
  { unfold stopped in Hstopped. apply Z.geb_le in Hstopped.
    destruct (inv_state s Hinv) as [H|[H|H]]; rewrite H in *;
      unfold CLOSE, RUN, INITIAL in *; lia. }
  assert (_stopping s = false) as Hst.
  { destruct (_stopping s) eqn:E; [|reflexivity].
    rewrite (inv_stopping s Hinv E) in Hc. discriminate. }
  assert (stop s = s) as Hstop.
  { unfold stop, is_alive. rewrite Hc. reflexivity. }
  split; [|exact Hstop].
  induction Hafter as [|c after Hc' _ IH]; [reflexivity|].
  simpl. destruct c as [script o|[]]; try contradiction; simpl.
  - rewrite start_not_initial by (rewrite Hc; discriminate). exact IH.
  - rewrite Hstop. exact IH.
  - rewrite (_stop_idle s Hst). exact IH.
Qed.

Lemma stopped_actor_is_inert_witness :
  run_calls [Call LStop; CallStart [LTick 300] LoopReturns; Call LStopped]
    (run_calls [CallStart [LTick 100; LStop] LoopReturns]
       (__init__ thread_backend sample_env (Some the_arbiter)
          (Some the_monitor) None false))
  = run_calls [CallStart [LTick 100; LStop] LoopReturns]
      (__init__ thread_backend sample_env (Some the_arbiter)
         (Some the_monitor) None false).
Proof.
  pose proof (stopped_actor_is_inert thread_backend sample_env
                (Some the_arbiter) (Some the_monitor) None false
                [CallStart [LTick 100; LStop] LoopReturns]
                [Call LStop; CallStart [LTick 300] LoopReturns; Call LStopped])
    as H.
  cbv zeta in H. destruct H as [H _].
  - vm_compute. reflexivity.
  - repeat constructor.
  - exact H.
Defined.

(** ** What a flush does and does not do *)

Lemma process_inbox (closing : bool) (r : request) (s : actor) :
  _inbox (fst (process closing r s)) = _inbox s.
Proof.
  unfold process. destruct (_ && _); [reflexivity|].
  apply handle_request_inbox.
Qed.

(** X10.  A flush, closing or not, leaves the state, the stopping flag once
    up, [last_notified] and the configuration alone; what it adds to the
    trace are logs of un-linked senders and of errors, callbacks, resolved
    waiters and at most the effects of a [stop]: never a heartbeat, a call
    of [on_task] or [on_exit], or the closing of the inbox. *)
Theorem flush_touches_nothing_else (closing : bool) (s : actor) :
  let s' := flush closing s in
  _state s' = _state s
  /\ last_notified s' = last_notified s
  /\ (_stopping s = true -> _stopping s' = true)
  /\ exists d,
       trace s' = trace s ++ d
       /\ forallb flush_event d = true
       /\ count is_notify d = 0%nat
       /\ count is_on_task d = 0%nat
       /\ count is_on_exit d = 0%nat
       /\ count is_inbox_close d = 0%nat
       /\ count is_exit_notice d = 0%nat.
Proof.
  intros s'. pose proof (evolves_flush closing s) as Hev. fold s' in Hev.
  split; [apply (ev_state _ _ _ Hev)|].
  split; [apply (ev_last _ _ _ Hev)|].
  split; [apply (ev_stopping_up _ _ _ Hev)|].
  destruct (ev_trace _ _ _ Hev) as (d & Hd & Hall). exists d.
  pose proof (forallb_weaken _ _ _ flush_event_plain Hall) as Hplain.
  repeat split; try assumption.
  - apply (count_none _ _ _ flush_event_not_notify Hall).
  - apply (count_none _ _ _ flush_event_not_on_task Hall).
  - apply (count_none _ _ _ plain_not_on_exit Hplain).
  - apply (count_none _ _ _ plain_not_close Hplain).
  - apply (count_none _ _ _ plain_not_notice Hplain).
Qed.

Lemma flush_loop_inbox (closing : bool) (pending : list inbox_entry) (s : actor) :
  exists taken,
    pending = taken ++ _inbox (flush_loop closing pending s)
    /\ (pending <> [] -> taken <> []).
Proof.
  revert s. induction pending as [|[r|] rest IH]; intros s; simpl.
  - exists []. split; [reflexivity|]. intros H. contradiction.
  - pose proof (process_inbox closing r (set_inbox rest s)) as Hin.
    destruct (process closing r (set_inbox rest s)) as [s1 [e|]];
      simpl in Hin.
    + destruct (IH (emit (EvLogError (LogRequestError e)) s1))
        as (taken & Ht & _).
      exists (Msg r :: taken). simpl. rewrite <- Ht.
      split; [reflexivity|discriminate].
    + destruct closing.
      * destruct (IH s1) as (taken & Ht & _).
        exists (Msg r :: taken). simpl. rewrite <- Ht.
        split; [reflexivity|discriminate].
      * exists [Msg r]. simpl. rewrite Hin.
        split; [reflexivity|discriminate].
  - exists [IOFault]. split; [reflexivity|discriminate].
Qed.

(** X11.  A flush takes entries from the head of the inbox only: what is left
    is a suffix of what was there, in the same order, and when the inbox was
    not empty at least one entry has gone. *)
Theorem flush_takes_from_the_head (closing : bool) (s : actor) :
  exists taken,
    _inbox s = taken ++ _inbox (flush closing s)
    /\ (_inbox s <> [] -> taken <> []).
Proof. apply flush_loop_inbox. Qed.

(** X12.  A closing flush goes through the whole inbox: it stops at the
    first I/O fault only, and leaves what is behind it; without a fault it
    leaves the inbox empty, requests that raise included. *)
Theorem closing_flush_drains (s : actor) :
  _inbox (flush true s) = after_fault (_inbox s)
  /\ (Forall (fun e => e <> IOFault) (_inbox s) -> _inbox (flush true s) = []).
Proof.
  split; [|apply flush_closing_drains].
  unfold flush. generalize (_inbox s). intros pending. revert s.
  induction pending as [|[r|] rest IH]; intros s; simpl; try reflexivity.
  destruct (process true r (set_inbox rest s)) as [s1 [e|]]; apply IH.
Qed.

Lemma builtin_event_no_rid (e : event) :
  builtin_event e = true -> callback_rid e = None.
Proof. destruct e; try discriminate; reflexivity. Qed.

Lemma quiet_callbacks (d : list event) :
  forallb builtin_event d = true ->
  omap callback_rid d = [] /\ count is_callback d = 0%nat.
Proof.
  intros Hall. split; [|apply (count_none _ _ _ builtin_event_not_callback Hall)].
  induction d as [|e d IH]; simpl in *; [reflexivity|].
  apply andb_true_iff in Hall as [He Hd].
  rewrite (builtin_event_no_rid e He). auto.
Qed.

(** What one request adds to the trace, as far as callbacks go: none, or
    one that carries its [rid]; none when the request raises. *)
Lemma process_callbacks (closing : bool) (r : request) (s : actor) :
  exists d,
    trace (fst (process closing r s)) = trace s ++ d
    /\ (omap callback_rid d = []
        \/ (omap callback_rid d = [VStr (req_rid r)]
            /\ snd (process closing r s) = None))
    /\ count is_callback d = length (omap callback_rid d).
Proof.
  unfold process. destruct (_ && _).
  { exists [EvLogInfo LogUnlinked]. simpl. auto. }
  generalize (get_actor (req_aid r) s). intros caller.
  unfold handle_request_from_actor.
  destruct (attr_truthy _);
    [|exists []; simpl; rewrite app_nil_r; auto].
  destruct (getattr_actor_ s (req_name r)) as [h| |];
    try (exists []; simpl; rewrite app_nil_r; auto; fail).
  destruct (bind _ _ _) as [vals|];
    [|exists []; simpl; rewrite app_nil_r; auto].
  pose proof (evolves_call_builtin_own h caller vals s) as Hev.
  destruct (ev_trace _ _ _ Hev) as (d & Hd & Hall).
  destruct (quiet_callbacks d Hall) as [Hom Hc].
  destruct (call_builtin h caller vals s) as [s1 [e|v]]; simpl in *.
  - exists d. rewrite Hom, Hc. auto.
  - destruct (default true (ack_attr h)); simpl.
    + exists (d ++ [EvSend caller "callback" [VStr (req_rid r); v]]).
      rewrite Hd, <- app_assoc, omap_app, Hom, count_app, Hc. simpl. auto.
    + exists d. rewrite Hom, Hc. auto.
Qed.

Lemma flush_loop_callbacks (closing : bool) (pending : list inbox_entry)
    (s : actor) :
  exists d,
    trace (flush_loop closing pending s) = trace s ++ d
    /\ omap callback_rid d `sublist_of` omap entry_rid pending
    /\ count is_callback d = length (omap callback_rid d).
Proof.
  revert s. induction pending as [|[r|] rest IH]; intros s; simpl.
  - exists []. rewrite app_nil_r. repeat split. constructor.
  - destruct (process_callbacks closing r (set_inbox rest s))
      as (d1 & Hd1 & Hrid & Hc1).
    destruct (process closing r (set_inbox rest s)) as [s1 [e|]];
      simpl in Hd1, Hrid.
    + destruct Hrid as [Hrid|[_ Habs]]; [|discriminate].
      destruct (IH (emit (EvLogError (LogRequestError e)) s1))
        as (d2 & Hd2 & Hsub & Hc2).
      exists (d1 ++ [EvLogError (LogRequestError e)] ++ d2).
      rewrite Hd2. simpl. rewrite Hd1, <- !app_assoc. simpl.
      rewrite omap_app, count_app, Hrid, Hc1, Hrid. simpl.
      repeat split; [|exact Hc2]. apply sublist_cons, Hsub.
    + assert (omap callback_rid d1 `sublist_of` [VStr (req_rid r)]) as Hs1.
      { destruct Hrid as [->|[-> _]]; [apply sublist_nil_l|reflexivity]. }
      destruct closing.
      * destruct (IH s1) as (d2 & Hd2 & Hsub & Hc2).
        exists (d1 ++ d2). rewrite Hd2, Hd1, <- app_assoc.
        rewrite omap_app, count_app, length_app, Hc1, Hc2.
        repeat split.
        apply (sublist_app _ [VStr (req_rid r)]); assumption.
      * exists d1. repeat split; [exact Hd1| |exact Hc1].
        apply (sublist_inserts_r (omap entry_rid rest)) in Hs1. exact Hs1.
  - exists []. rewrite app_nil_r. repeat split. apply sublist_nil_l.
Qed.

(** X13.  The callbacks a flush sends answer the requests of the inbox in
    the order of the inbox: their [rid]s are a subsequence of the [rid]s
    waiting, so no request is answered twice, none out of turn, and no
    callback carries a [rid] that was not asked. *)
Theorem flush_answers_in_order (closing : bool) (s : actor) :
  exists d,
    trace (flush closing s) = trace s ++ d
    /\ omap callback_rid d `sublist_of` omap entry_rid (_inbox s)
    /\ count is_callback d = length (omap callback_rid d).
Proof. apply flush_loop_callbacks. Qed.

Lemma process_trace (closing : bool) (r : request) (s : actor) :
  exists d, trace (fst (process closing r s)) = trace s ++ d.
Proof.
  destruct (ev_trace _ _ _ (evolves_process closing r s)) as (d & Hd & _).
  eauto.
Qed.

Lemma flush_loop_error_bound (pending : list inbox_entry) (s : actor) :
  exists taken d,
    pending = taken ++ _inbox (flush_loop false pending s)
    /\ trace (flush_loop false pending s) = trace s ++ d
    /\ (length taken <= S (count is_error_log d))%nat.
Proof.
  revert s. induction pending as [|[r|] rest IH]; intros s; simpl.
  - exists [], []. simpl. rewrite app_nil_r.
    split; [reflexivity|]. split; [reflexivity|lia].
  - destruct (process_trace false r (set_inbox rest s)) as (d1 & Hd1).
    pose proof (process_inbox false r (set_inbox rest s)) as Hin.
    destruct (process false r (set_inbox rest s)) as [s1 [e|]];
      simpl in Hd1, Hin.
    + destruct (IH (emit (EvLogError (LogRequestError e)) s1))
        as (taken & d2 & Ht & Hd2 & Hle).
      exists (Msg r :: taken), (d1 ++ [EvLogError (LogRequestError e)] ++ d2).
      simpl. rewrite <- Ht, Hd2. simpl. rewrite Hd1, <- !app_assoc.
      split; [reflexivity|]. split; [reflexivity|].
      rewrite !count_app. simpl. lia.
    + exists [Msg r], d1. simpl. rewrite Hin.
      split; [reflexivity|]. split; [exact Hd1|lia].
  - exists [IOFault], []. simpl. rewrite app_nil_r.
    split; [reflexivity|]. split; [reflexivity|lia].
Qed.

(** X14.  A flush that is not closing takes one entry, plus one for every
    error it logs: each request that raises makes it take the next entry as
    well, and nothing else does. *)
Theorem flush_takes_one_more_per_error (s : actor) :
  exists taken d,
    _inbox s = taken ++ _inbox (flush false s)
    /\ trace (flush false s) = trace s ++ d
    /\ (length taken <= S (count is_error_log d))%nat.
Proof. apply flush_loop_error_bound. Qed.

(** X15.  One tick leaves the state as it is and never finalizes the actor;
    it calls [on_task] at most once and sends at most one heartbeat, and
    [last_notified] moves, to the time of the tick, exactly when a heartbeat
    is sent. *)
Theorem tick_bounds (now : float) (s : actor) :
  let s' := __call__ now s in
  _state s' = _state s
  /\ exists d,
       trace s' = trace s ++ d
       /\ (count is_on_task d <= 1)%nat
       /\ (count is_notify d <= 1)%nat
       /\ count is_on_exit d = 0%nat
       /\ count is_inbox_close d = 0%nat
       /\ (count is_notify d = 1%nat -> last_notified s' = Some now)
       /\ (count is_notify d = 0%nat -> last_notified s' = last_notified s).
Proof.
  intros s'. split; [apply __call___state|].
  subst s'. unfold __call__.
  pose proof (evolves_flush false s) as Hev.
  set (s1 := flush false s) in *.
  destruct (ev_trace _ _ _ Hev) as (d1 & Hd1 & Hall).
  pose proof (forallb_weaken _ _ _ flush_event_plain Hall) as Hplain.
  pose proof (count_none _ _ _ flush_event_not_notify Hall) as Hn1.
  pose proof (count_none _ _ _ flush_event_not_on_task Hall) as Ht1.
  pose proof (count_none _ _ _ plain_not_on_exit Hplain) as He1.
  pose proof (count_none _ _ _ plain_not_close Hplain) as Hc1.
  pose proof (ev_last _ _ _ Hev) as Hlast.
  assert (exists d2,
            trace (heartbeat now s1) = trace s1 ++ d2
            /\ ((d2 = [] /\ last_notified (heartbeat now s1) = last_notified s1)
                \/ (exists nt, d2 = [EvSend (Some RefArbiter) "notify" [VNum nt]]
                    /\ nt = now
                    /\ last_notified (heartbeat now s1) = Some now)))
    as (d2 & Hd2 & Hcase).
  { assert (forall nt, heartbeat_nt now s1 = Some nt -> nt = now) as Hnt.
    { unfold heartbeat_nt. intros nt.
      destruct (last_notified s1) as [t0|];
        [destruct (PrimFloat.ltb (PrimFloat.sub now t0) (tolerance s1)); [discriminate|]|];
        congruence. }
    unfold heartbeat.
    destruct (_ && _); [|exists []; rewrite app_nil_r; auto].
    destruct (heartbeat_nt now s1) as [nt|];
      [|exists []; rewrite app_nil_r; auto].
    rewrite (Hnt nt eq_refl).
    destruct (num_truthy now); [|exists []; rewrite app_nil_r; auto].
    eexists. split; [reflexivity|]. right. eauto. }
  destruct (heartbeat_frame now s1) as (_ & Hst & _).
  set (s2 := heartbeat now s1) in *.
  exists (d1 ++ d2 ++ if negb (_stopping s2) then [EvHook OnTask] else []).
  assert (forall x, (if negb (_stopping s2) then emit (EvHook OnTask) s2 else s2) = x ->
            trace x = trace s ++ d1 ++ d2
                      ++ (if negb (_stopping s2) then [EvHook OnTask] else [])
            /\ last_notified x = last_notified s2) as Hx.
  { intros x <-. destruct (negb _); simpl; rewrite Hd2, Hd1, <- ?app_assoc;
      rewrite ?app_nil_r; auto. }
  destruct (Hx _ eq_refl) as [Htr Hl]. clear Hx. rewrite Hl.
  split; [exact Htr|]. rewrite !count_app, Hn1, Ht1, He1, Hc1. simpl.
  destruct Hcase as [[-> Hl2]|(nt & -> & -> & Hl2)]; rewrite Hl2;
    destruct (negb (_stopping s2)); simpl;
    repeat split; try lia; try congruence; intros; try discriminate; lia.
Qed.

(** ** The linked actors *)

Lemma stop_linked (s : actor) : _linked_actors (stop s) = _linked_actors s.
Proof.
  unfold stop. destruct (_ && _); [|reflexivity].
  simpl. destruct (on_stop_result s); reflexivity.
Qed.

Lemma call_builtin_linked (h : builtin) (caller : option actor_ref)
    (vals : list pyval) (s : actor) :
  dom (_linked_actors (fst (call_builtin h caller vals s)))
  ⊆ dom (_linked_actors s)
  /\ (h <> actor_on_actor_exit ->
      dom (_linked_actors (fst (call_builtin h caller vals s)))
      = dom (_linked_actors s)).
Proof.
  destruct h; simpl;
    repeat (destruct vals as [|? vals]; simpl; rewrite ?stop_linked;
            try (split; [reflexivity|reflexivity]));
    try (split; [reflexivity|intros _; reflexivity]).
  - destruct caller as [[]|]; simpl; rewrite ?dom_alter_L;
      split; reflexivity.
  - split; [|intros H; contradiction].
    destruct (caller ≫= ref_aid s) as [a|]; simpl; [|reflexivity].
    destruct (_linked_actors s !! a); simpl; [|reflexivity].
    rewrite dom_delete_L. apply subseteq_difference_l. reflexivity.
Qed.

Lemma handle_request_linked (caller : option actor_ref) (r : request)
    (s : actor) :
  dom (_linked_actors (fst (handle_request_from_actor caller r s)))
  ⊆ dom (_linked_actors s)
  /\ (req_name r <> "on_actor_exit" ->
      dom (_linked_actors (fst (handle_request_from_actor caller r s)))
      = dom (_linked_actors s)).
Proof.
  unfold handle_request_from_actor.
  destruct (attr_truthy _); [|split; reflexivity].
  destruct (getattr_actor_ s (req_name r)) as [h| |] eqn:Hattr;
    try (split; reflexivity).
  destruct (bind _ _ _) as [vals|]; [|split; reflexivity].
  destruct (call_builtin_linked h caller vals s) as [Hsub Heq].
  assert (req_name r <> "on_actor_exit" -> h <> actor_on_actor_exit) as Hh.
  { intros Hn ->. apply getattr_method_in_table in Hattr as [_ E].
    contradiction. }
  destruct (call_builtin h caller vals s) as [s1 [e|v]]; simpl in *;
    [split; auto|].
  destruct (default true (ack_attr h)); simpl; split; auto.
Qed.

Lemma flush_loop_linked (closing : bool) (pending : list inbox_entry)
    (s : actor) :
  dom (_linked_actors (flush_loop closing pending s))
  ⊆ dom (_linked_actors s).
Proof.
  revert s. induction pending as [|[r|] rest IH]; intros s; simpl;
    try reflexivity.
  assert (dom (_linked_actors (fst (process closing r (set_inbox rest s))))
          ⊆ dom (_linked_actors s)) as H.
  { unfold process. destruct (_ && _); [reflexivity|].
    apply (handle_request_linked _ r (set_inbox rest s)). }
  destruct (process closing r (set_inbox rest s)) as [s1 [e|]]; simpl in H.
  - etransitivity; [apply IH|exact H].
  - destruct closing; [etransitivity; [apply IH|exact H]|exact H].
Qed.

Lemma heartbeat_linked (now : float) (s : actor) :
  _linked_actors (heartbeat now s) = _linked_actors s.
Proof.
  unfold heartbeat. destruct (_ && _); [|reflexivity].
  destruct (heartbeat_nt now s) as [nt|]; [|reflexivity].
  destruct (num_truthy nt); reflexivity.
Qed.

Lemma _stop_linked (s : actor) : _linked_actors (_stop s) = _linked_actors s.
Proof.
  unfold _stop. destruct (_stopping s); [|reflexivity].
  simpl. destruct (negb _); reflexivity.
Qed.

Lemma registry_empty_history (cs : list api_call) (s : actor) :
  _linked_actors s = ∅ -> _linked_actors (run_calls cs s) = ∅.
Proof.
  apply (history_run_calls (fun s0 => _linked_actors s0 = ∅)); clear cs s;
    simpl; auto.
  - intros v s Hsub Hs. rewrite Hs, dom_empty_L in Hsub.
    apply dom_empty_iff_L. apply (anti_symm (⊆)); [exact Hsub|].
    apply empty_subseteq.
  - intros s Hs. rewrite stop_linked. exact Hs.
  - intros now s Hs. rewrite heartbeat_linked. exact Hs.
  - intros s Hs. rewrite _stop_linked. exact Hs.
  - intros s _ Hs. unfold booted. destruct (isprocess s); exact Hs.
Qed.

(** X16.  [link] raises [NameError] at every call, [LinkedActor] being no
    name of the module, and leaves the actor as it is.  No other method
    adds to the registry: on an actor built by the constructor it is empty
    after any history of calls, and [get_actor] never answers with a linked
    actor. *)
Theorem link_links_nothing (impl : backend) (e : os_env)
    (arb mon : option supervisor) (links : option (list (string * string)))
    (d : bool) (cs : list api_call) (a : string) :
  let s := run_calls cs (__init__ impl e arb mon links d) in
  link a s = (s, Some (NameError "LinkedActor"))
  /\ run_calls (cs ++ [Call (LLink a)]) (__init__ impl e arb mon links d) = s
  /\ _linked_actors s = ∅
  /\ (forall b x, get_actor b s <> Some (RefLinked x)).
Proof.
  intros s.
  assert (_linked_actors s = ∅) as Hs by (apply registry_empty_history; reflexivity).
  split; [reflexivity|]. split.
  { unfold run_calls. rewrite foldl_app. reflexivity. }
  split; [exact Hs|].
  intros b x. unfold get_actor. rewrite Hs, lookup_empty.
  rewrite (bool_decide_eq_false_2 (is_Some None)) by apply is_Some_None.
  destruct (bool_decide (b = _aid s)); [discriminate|].
  destruct (is_sup b (arbiter s)); [discriminate|].
  destruct (is_sup b (monitor s)); discriminate.
Qed.

(** X17.  On an actor built by the constructor, after any history of calls,
    an [on_actor_exit] request whose arguments fit never succeeds: the
    registry being empty, [pop] raises [KeyError] with the caller's aid, or
    the call raises [AttributeError] when the caller has no aid; the actor
    is as before and nothing is sent. *)
Theorem exit_notice_finds_nobody (impl : backend) (e : os_env)
    (arb mon : option supervisor) (links : option (list (string * string)))
    (d : bool) (cs : list api_call) (caller : option actor_ref)
    (r : request) (reason : pyval) :
  let s := run_calls cs (__init__ impl e arb mon links d) in
  req_name r = "on_actor_exit" ->
  bind (params actor_on_actor_exit) (req_args r) (req_kwargs r)
  = Some [reason] ->
  handle_request_from_actor caller r s
  = (s, Some match caller ≫= ref_aid s with
             | Some a => KeyError a
             | None => AttributeError
             end).
Proof.
  intros s Hname Hbind.
  assert (_linked_actors s = ∅) as Hs by (apply registry_empty_history; reflexivity).
  unfold handle_request_from_actor, getattr_actor_. rewrite Hname.
  cbn [String.eqb Ascii.eqb Bool.eqb attr_truthy ack_attr default].
  rewrite Hbind. simpl.
  destruct (caller ≫= ref_aid s) as [a|]; [|reflexivity].
  rewrite Hs, lookup_empty. reflexivity.
Qed.

Lemma exit_notice_finds_nobody_witness :
  handle_request_from_actor (Some RefArbiter)
    (mk_request "arbiter" "on_actor_exit" "r3" []) worker
  = (worker, Some (KeyError "arbiter")).
Proof.
  exact (exit_notice_finds_nobody thread_backend sample_env
           (Some the_arbiter) (Some the_monitor) None false
           [] (Some RefArbiter)
           (mk_request "arbiter" "on_actor_exit" "r3" []) VNone
           eq_refl eq_refl).
Defined.

(** X18.  No message makes an actor link another: after a flush, and after a
    whole tick, the linked aids are among those linked before, and a request
    other than [on_actor_exit] leaves them exactly as they were. *)
Theorem messages_never_link (closing : bool) (now : float) (caller : option actor_ref)
    (r : request) (s : actor) :
  dom (_linked_actors (flush closing s)) ⊆ dom (_linked_actors s)
  /\ dom (_linked_actors (__call__ now s)) ⊆ dom (_linked_actors s)
  /\ (req_name r <> "on_actor_exit" ->
      dom (_linked_actors (fst (handle_request_from_actor caller r s)))
      = dom (_linked_actors s)).
Proof.
  split; [apply flush_loop_linked|].
  split; [|apply handle_request_linked].
  unfold __call__.
  destruct (heartbeat_frame now (flush false s)) as (_ & _ & _ & _ & Hl).
  destruct (negb _); simpl; rewrite Hl; apply flush_loop_linked.
Qed.

(** ** Requests that stop, and requests that do not fit *)

(** X19.  A tick whose flush takes a [stop] message from a sender that
    resolves is: the inbox loses the message, [stop] is called, the
    heartbeat block runs, and [on_task] is not called when the actor was
    alive; no callback is sent for the message. *)
Theorem stop_message_in_tick (now : float) (r : request)
    (rest : list inbox_entry) (caller : actor_ref) (s : actor) :
  _inbox s = Msg r :: rest ->
  req_name r = "stop" -> req_args r = [] -> req_kwargs r = [] ->
  get_actor (req_aid r) s = Some caller ->
  flush false s = stop (set_inbox rest s)
  /\ (is_alive s = true ->
      __call__ now s = heartbeat now (stop (set_inbox rest s))
      /\ _stopping (__call__ now s) = true).
Proof.
  intros Hin Hname Hargs Hkw Hget.
  assert (flush false s = stop (set_inbox rest s)) as Hflush.
  { rewrite (flush_unfold false r rest s Hin). unfold process.
    change (get_actor (req_aid r) (set_inbox rest s))
      with (get_actor (req_aid r) s).
    rewrite Hget. simpl.
    unfold handle_request_from_actor, getattr_actor_.
    rewrite Hname, Hargs, Hkw. reflexivity. }
  split; [exact Hflush|]. intros Halive.
  assert (_stopping (stop (set_inbox rest s)) = true) as Hst.
  { unfold stop. change (is_alive (set_inbox rest s)) with (is_alive s).
    rewrite Halive. simpl. destruct (_stopping s) eqn:E; simpl; [exact E|].
    destruct (on_stop_result s); reflexivity. }
  unfold __call__. rewrite Hflush.
  destruct (heartbeat_frame now (stop (set_inbox rest s))) as (_ & H & _).
  rewrite H, Hst. simpl. split; [reflexivity|]. rewrite H. exact Hst.
Qed.

Lemma stop_message_in_tick_witness :
  let s := run_ops [LDeliver (Msg (mk_request "arbiter" "stop" "r5" []))]
             running_worker in
  flush false s = stop (set_inbox [] s).
Proof.
  cbv zeta.
  apply (stop_message_in_tick 100
           (mk_request "arbiter" "stop" "r5" []) [] RefArbiter
           (run_ops [LDeliver (Msg (mk_request "arbiter" "stop" "r5" []))]
              running_worker)); reflexivity.
Defined.

Lemma bind_keywords_length (ps : list (string * option pyval))
    (kwargs : list (string * pyval)) (vals : list pyval) :
  bind_keywords ps kwargs = Some vals -> length vals = length ps.
Proof.
  revert vals. induction ps as [|[p d] ps IH]; intros vals; simpl.
  - intros [= <-]. reflexivity.
  - destruct (kw_lookup p kwargs) as [v|]; [|destruct d as [v|]];
      try discriminate;
      destruct (bind_keywords ps kwargs) as [vs|]; try discriminate;
      intros [= <-]; simpl; rewrite (IH vs eq_refl); reflexivity.
Qed.

Lemma kw_lookup_Some (k : string) (kwargs : list (string * pyval)) :
  k ∈ kwargs.*1 -> is_Some (kw_lookup k kwargs).
Proof.
  induction kwargs as [|[k' v] kwargs IH]; simpl.
  - intros H. inversion H.
  - intros [->|H]%elem_of_cons.
    + rewrite String.eqb_refl. eauto.
    + destruct (String.eqb k k'); eauto.
Qed.

(** What a call that binds looks like: no more positional arguments than
    parameters, one value per parameter, every keyword a parameter, and
    none of them a parameter already given by position. *)
Lemma bind_Some (ps : list (string * option pyval)) (args : list pyval)
    (kwargs : list (string * pyval)) (vals : list pyval) :
  bind ps args kwargs = Some vals ->
  (length args <= length ps)%nat
  /\ length vals = length ps
  /\ (forall k, k ∈ kwargs.*1 -> k ∈ (drop (length args) ps).*1).
Proof.
  revert ps vals. induction args as [|a args IH]; intros ps vals; simpl.
  - assert (bind ps [] kwargs
            = if forallb (fun kv => existsb (fun p => String.eqb (fst kv) (fst p)) ps)
                   kwargs
              then bind_keywords ps kwargs else None) as ->
      by (destruct ps; reflexivity).
    match goal with
    | |- context [forallb ?f kwargs] => destruct (forallb f kwargs) eqn:Hall
    end; [|discriminate].
    intros H. split; [lia|]. split; [apply (bind_keywords_length _ _ _ H)|].
    intros k Hk. rewrite drop_0.
    apply list_elem_of_fmap in Hk as (kv & -> & Hin).
    rewrite forallb_forall in Hall.
    specialize (Hall kv (proj1 (list_elem_of_In _ _) Hin)).
    apply existsb_exists in Hall as (p & Hp & ->%String.eqb_eq).
    apply list_elem_of_fmap. exists p. split; [reflexivity|].
    apply list_elem_of_In, Hp.
  - destruct ps as [|[p d] ps]; simpl; [discriminate|].
    destruct (kw_lookup p kwargs) eqn:Hp; [discriminate|].
    destruct (bind ps args kwargs) as [vs|] eqn:Hb; simpl; [|discriminate].
    intros [= <-]. destruct (IH ps vs Hb) as (H1 & H2 & H3).
    simpl. repeat split; [lia|lia|exact H3].
Qed.

(** X20.  A request with more positional arguments than the function takes,
    or with a keyword that is not one of its parameters, is a [TypeError]
    before the function runs: the actor is as before and nothing is sent.
    [stop], [info] and [ping] take no argument at all. *)
Theorem request_that_does_not_fit (caller : option actor_ref) (r : request)
    (s : actor) (h : builtin) :
  getattr_actor_ s (req_name r) = AttrMethod h ->
  (length (params h) < length (req_args r))%nat
  \/ (exists k, k ∈ (req_kwargs r).*1 /\ k ∉ (params h).*1) ->
  handle_request_from_actor caller r s = (s, Some TypeError).
Proof.
  intros Hattr Hbad. apply (ill_formed_call_raises caller r s h Hattr).
  destruct (bind (params h) (req_args r) (req_kwargs r)) as [vals|] eqn:Hb;
    [|reflexivity].
  exfalso. destruct (bind_Some _ _ _ _ Hb) as (H1 & _ & H3).
  destruct Hbad as [Hlen|(k & Hk & Hnot)]; [lia|].
  apply Hnot. specialize (H3 k Hk).
  apply list_elem_of_fmap in H3 as (p & -> & Hin).
  apply list_elem_of_fmap. exists p. split; [reflexivity|].
  apply (subseteq_drop (length (req_args r))), Hin.
Qed.

Lemma request_that_does_not_fit_witness :
  handle_request_from_actor (Some RefArbiter)
    (mk_request "arbiter" "ping" "r1" [VNum 1]) running_worker
  = (running_worker, Some TypeError).
Proof.
  apply (request_that_does_not_fit (Some RefArbiter)
           (mk_request "arbiter" "ping" "r1" [VNum 1]) running_worker
           actor_ping eq_refl).
  left. simpl. lia.
Defined.

Lemma passive_not_start (e : event) :
  passive_event e = true ->
  is_on_start e = false /\ is_configure_logging e = false.
Proof. destruct e as [| | | | | | | | | | |]; simpl; try discriminate; auto; match goal with h : hook |- _ => destruct h end; simpl; try discriminate; auto. Qed.

Lemma start_counted_history (cs : list api_call) (s : actor) :
  lifecycle_inv s /\ start_counted s ->
  lifecycle_inv (run_calls cs s) /\ start_counted (run_calls cs s).
Proof.
  apply (history_run_calls (fun s0 => lifecycle_inv s0 /\ start_counted s0));
    clear cs s.
  - intros e s He [Hinv [H1 H2]].
    split; [apply inv_emit_plain, Hinv; apply passive_plain, He|].
    destruct (passive_not_start e He) as [E1 E2].
    unfold start_counted. simpl. rewrite !count_snoc, E1, E2, !Nat.add_0_r. auto.
  - intros v s [Hinv HC]. split; [|exact HC].
    apply (inv_evolves plain_event _ _ (fun _ H => H) (evolves_set_inbox _ v s) Hinv).
  - intros v s _ [Hinv HC]. split; [|exact HC].
    apply (inv_evolves plain_event _ _ (fun _ H => H) (evolves_set_linked _ v s) Hinv).
  - intros t s [Hinv HC]. split; [|exact HC].
    apply (inv_evolves plain_event _ _ (fun _ H => H)
             (evolves_notified_arbiter _ t s) Hinv).
  - intros t s [Hinv HC]. split; [|exact HC].
    apply (inv_evolves plain_event _ _ (fun _ H => H)
             (evolves_notified_monitor _ t s) Hinv).
  - intros s [Hinv [H1 H2]]. split; [apply inv_stop, Hinv|].
    revert H1 H2. unfold start_counted, stop, is_alive, isprocess.
    destruct (Z.eqb_spec (_state s) RUN) as [Hrun|Hrun]; simpl; [|auto].
    destruct (_stopping s) eqn:Hst; simpl; [auto|].
    destruct (on_stop_result s) eqn:Hres; simpl;
      rewrite ?count_app; simpl; rewrite ?count_app; simpl;
      rewrite ?Nat.add_0_r; auto.
  - intros now s [Hinv [H1 H2]]. split; [apply inv_heartbeat, Hinv|].
    revert H1 H2. unfold start_counted, heartbeat.
    destruct (_ && _); [|auto].
    destruct (heartbeat_nt now s) as [nt|]; [|auto].
    destruct (num_truthy nt); [|auto].
    simpl. rewrite !count_snoc. simpl. rewrite !Nat.add_0_r. auto.
  - intros s [Hinv [H1 H2]]. split; [apply inv__stop, Hinv|].
    destruct (_stopping s) eqn:Hst;
      [|rewrite (_stop_idle s Hst); split; assumption].
    destruct (_stop_body s Hst) as (Ht & Hs & Hf).
    assert (isprocess (_stop s) = isprocess s) as Hp.
    { unfold _stop. rewrite Hst. simpl. destruct (negb _); reflexivity. }
    pose proof (inv_stopping s Hinv Hst) as Hrun.
    revert H1 H2.
    unfold start_counted. rewrite Ht, Hs, Hp, !count_app, Hrun.
    simpl. unfold finalize_events.
    destruct (is_monitor s); simpl; rewrite ?Nat.add_0_r; auto.
  - intros s H0 [Hinv [H1 H2]]. split; [apply (inv_boot s Hinv H0)|].
    revert H1 H2. unfold start_counted, booted. rewrite H0. simpl.
    unfold isprocess.
    destruct (String.eqb (_impl s) "process") eqn:E; simpl;
      rewrite ?count_app; simpl; rewrite ?count_app; simpl; rewrite ?E;
      intros -> ->; auto.
Qed.

(** X21.  However often [start] is called on an actor, [on_start] runs
    once, at the first call, and the logging is configured once and on a
    process only; nothing else runs them.  [on_stop] never runs on an actor
    that [on_start] has not run on. *)
Theorem start_boots_once (impl : backend) (e : os_env)
    (arb mon : option supervisor) (links : option (list (string * string)))
    (d : bool) (cs : list api_call) :
  let s := run_calls cs (__init__ impl e arb mon links d) in
  count is_on_start (trace s) = (if started s then 1%nat else 0%nat)
  /\ count is_configure_logging (trace s)
     = (if started s && String.eqb (b_impl impl) "process"
        then 1%nat else 0%nat)
  /\ (count is_on_stop (trace s) <= count is_on_start (trace s))%nat.
Proof.
  intros s.
  destruct (start_counted_history cs (__init__ impl e arb mon links d))
    as [Hinv [H1 H2]].
  { split; [apply inv_init|]. split; reflexivity. }
  destruct (stop_counted_history cs (__init__ impl e arb mon links d))
    as [_ [H3 _]].
  { split; [apply inv_init|]. split; simpl; [reflexivity|].
    destruct d; reflexivity. }
  fold s in Hinv, H1, H2, H3.
  assert (_impl s = b_impl impl) as Hi.
  { apply (same_config_history cs (__init__ impl e arb mon links d)). }
  assert (started s = negb (_state s =? INITIAL)%Z) as Hs.
  { unfold started.
    destruct (inv_state s Hinv) as [E | [E | E]]; rewrite E; reflexivity. }
  rewrite H1, H2, H3, Hs. unfold isprocess. rewrite Hi.
  split; [destruct (_state s =? INITIAL)%Z; reflexivity|].
  split; [destruct (_state s =? INITIAL)%Z; reflexivity|].
  destruct (_stopping s) eqn:Hst; simpl.
  - rewrite (inv_stopping s Hinv Hst). simpl. lia.
  - destruct (inv_state s Hinv) as [E | [E | E]]; rewrite E; simpl; lia.
Qed.
